(** * sql_basics.py: the statements of the script over a model of the store

    The script opens [example.db] with Python's [sqlite3] module, creates
    the tables [users] and [orders], and runs a fixed sequence of SQL
    statements.  Each statement is embedded as a function on the state of
    the connection; the statements are chained in a state-and-exception
    monad, because a Python exception leaves the connection as it was when
    the statement failed.

    What the engine does by default and the script never changes:
    - foreign keys are declared but not enforced ([PRAGMA foreign_keys] is
      off after [sqlite3.connect]); the flag is part of the connection so
      that both settings can be compared;
    - the module works in its legacy transaction mode: a [BEGIN] is issued
      before an INSERT, UPDATE or DELETE when no transaction is open;
    - triggers do not fire themselves again ([PRAGMA recursive_triggers] is
      off).

    Integer columns are [Z]; the 64-bit range of a stored integer is written
    out where it is checked: when an integer is bound to a parameter of an
    INSERT ([OverflowError]), when a table gives out a rowid
    ([OperationalError] once the largest one is used), and in SUM.  AVG
    yields a REAL in the engine; here it is the exact quotient, a
    rational. *)

From Stdlib Require Import ZArith List String Ascii Bool Lia QArith Permutation Sorted.
From Stdlib Require OrderedTypeEx.
Import ListNotations.
Open Scope string_scope.
Open Scope Z_scope.
Open Scope list_scope.

(** ** Rows and tables *)

(** A row of [users] (lines 9-15).  [id] is the rowid; [city] is the only
    column that admits NULL. *)
Record User := mkUser {
  id : Z;
  name : string;
  age : Z;
  email : string;
  city : option string
}.

(** A row of [orders] (lines 97-103).  [user_id] admits NULL. *)
Record Order := mkOrder {
  order_id : Z;
  user_id : option Z;
  product_name : string;
  quantity : Z
}.

(** The content of the database file: both tables in rowid order, the
    AUTOINCREMENT counters kept in [sqlite_sequence], and whether the view
    and the trigger of the script are in the schema. *)
Record Database := mkDatabase {
  users : list User;
  orders : list Order;
  users_seq : Z;
  orders_seq : Z;
  user_orders_view : bool;
  update_user_age : bool
}.

(** A file in which the tables have just been created. *)
Definition empty_db : Database := mkDatabase [] [] 0 0 false false.

Definition set_users (d : Database) (us : list User) (s : Z) : Database :=
  mkDatabase us (orders d) s (orders_seq d) (user_orders_view d) (update_user_age d).

Definition set_orders (d : Database) (os : list Order) (s : Z) : Database :=
  mkDatabase (users d) os (users_seq d) s (user_orders_view d) (update_user_age d).

Definition set_view (d : Database) : Database :=
  mkDatabase (users d) (orders d) (users_seq d) (orders_seq d) true (update_user_age d).

Definition set_trigger (d : Database) : Database :=
  mkDatabase (users d) (orders d) (users_seq d) (orders_seq d) (user_orders_view d) true.

(** The tables replaced, the schema kept. *)
Definition with_tables (d : Database) (us : list User) (os : list Order) : Database :=
  mkDatabase us os (users_seq d) (orders_seq d) (user_orders_view d) (update_user_age d).

(** ** The connection *)

Inductive Handle := Open | Closed.

(** [db] is what statements on this connection read and write.  [journal]
    is [Some d] while a transaction is open, [d] being the content to go
    back to; the file itself holds [d] until the commit. *)
Record Connection := mkConnection {
  handle : Handle;
  cursor_closed : bool;
  foreign_keys : bool;
  db : Database;
  journal : option Database
}.

Definition set_db (c : Connection) (d : Database) : Connection :=
  mkConnection (handle c) (cursor_closed c) (foreign_keys c) d (journal c).

Definition set_journal (c : Connection) (j : option Database) : Connection :=
  mkConnection (handle c) (cursor_closed c) (foreign_keys c) (db c) j.

(** What the file holds, whatever the connection has pending. *)
Definition durable (c : Connection) : Database :=
  match journal c with
  | Some d => d
  | None => db c
  end.

(** [sqlite3.connect('example.db')] followed by [connection.cursor()]
    (lines 4-5). *)
Definition connect (file : Database) : Connection :=
  mkConnection Open false false file None.

(** ** Exceptions and the monad of the script *)

Inductive Constraint :=
| UNIQUE_users_email
| FOREIGN_KEY.

(** [IntegrityError] is the exception the script catches (the spec's
    ConstraintViolation); [ProgrammingError] is what the module raises on a
    closed cursor or connection (the spec's UseAfterClose);
    [OperationalError] covers the remaining failures of the engine, a
    table that has run out of rowids among them; [OverflowError] is what
    Python raises when an integer bound to a statement does not fit in 64
    bits. *)
Inductive Error :=
| IntegrityError (k : Constraint)
| ProgrammingError
| OperationalError
| OverflowError.

Definition M (A : Type) : Type := Connection -> (Error + A) * Connection.

Definition ret {A} (a : A) : M A := fun c => (inr a, c).

Definition raise {A} (e : Error) : M A := fun c => (inl e, c).

Definition bind {A B} (m : M A) (k : A -> M B) : M B :=
  fun c =>
    match m c with
    | (inl e, c') => (inl e, c')
    | (inr a, c') => k a c'
    end.

(** [try: m except: h] *)
Definition try_except {A} (m : M A) (h : Error -> M A) : M A :=
  fun c =>
    match m c with
    | (inl e, c') => h e c'
    | (inr a, c') => (inr a, c')
    end.

Declare Scope script_scope.
Delimit Scope script_scope with script.
Notation "x <- m ;; k" := (bind m (fun x => k))
  (at level 61, m at next level, right associativity) : script_scope.
Notation "m ;; k" := (bind m (fun _ => k))
  (at level 61, right associativity) : script_scope.
Open Scope script_scope.

(** Every call on the cursor first checks the cursor, then its connection. *)
Definition check_cursor : M unit :=
  fun c =>
    if cursor_closed c then (inl ProgrammingError, c)
    else match handle c with
         | Closed => (inl ProgrammingError, c)
         | Open => (inr tt, c)
         end.

(** Every call on the connection checks the connection. *)
Definition check_connection : M unit :=
  fun c =>
    match handle c with
    | Closed => (inl ProgrammingError, c)
    | Open => (inr tt, c)
    end.

(** The BEGIN the module issues before a data-changing statement when the
    connection is in autocommit. *)
Definition begin_implicit : M unit :=
  fun c =>
    match journal c with
    | Some _ => (inr tt, c)
    | None => (inr tt, set_journal c (Some (db c)))
    end.

(** One execution of a data-changing statement.  A statement that fails is
    undone on its own; the transaction stays open with what came before. *)
Definition step {A} (stmt : bool -> Database -> Error + (A * Database)) : M A :=
  fun c =>
    match stmt (foreign_keys c) (db c) with
    | inl e => (inl e, c)
    | inr (a, d) => (inr a, set_db c d)
    end.

(** [cursor.execute] of an INSERT, UPDATE or DELETE; the result is
    [cursor.rowcount]. *)
Definition execute_dml (stmt : bool -> Database -> Error + (Z * Database)) : M Z :=
  check_cursor ;; begin_implicit ;; step stmt.

Fixpoint steps {P} (stmt : P -> bool -> Database -> Error + (Z * Database))
    (ps : list P) : M Z :=
  match ps with
  | [] => ret 0
  | p :: ps' => n <- step (stmt p) ;; m <- steps stmt ps' ;; ret (n + m)
  end.

(** [cursor.executemany]: one BEGIN, then the statement once per parameter
    tuple, stopping at the first that fails. *)
Definition executemany {P} (stmt : P -> bool -> Database -> Error + (Z * Database))
    (ps : list P) : M Z :=
  check_cursor ;; begin_implicit ;; steps stmt ps.

(** [cursor.execute] of a SELECT: no transaction is opened. *)
Definition execute_query {A} (q : Database -> Error + A) : M A :=
  check_cursor ;;
  (fun c => match q (db c) with
            | inl e => (inl e, c)
            | inr a => (inr a, c)
            end).

(** [cursor.execute] of a CREATE statement: applied at once in autocommit,
    part of the transaction when one is open. *)
Definition execute_ddl (f : Database -> Database) : M unit :=
  check_cursor ;; (fun c => (inr tt, set_db c (f (db c)))).

(** [connection.execute('BEGIN')] (line 201). *)
Definition execute_BEGIN : M unit :=
  check_connection ;;
  (fun c => match journal c with
            | Some _ => (inl OperationalError, c)
            | None => (inr tt, set_journal c (Some (db c)))
            end).

(** [connection.commit()] *)
Definition commit : M unit :=
  check_connection ;; (fun c => (inr tt, set_journal c None)).

(** [connection.rollback()] *)
Definition rollback : M unit :=
  check_connection ;;
  (fun c => (inr tt, mkConnection (handle c) (cursor_closed c) (foreign_keys c)
                                  (durable c) None)).

(** [cursor.close()] (line 257) *)
Definition cursor_close : M unit :=
  check_connection ;;
  (fun c => (inr tt, mkConnection (handle c) true (foreign_keys c) (db c) (journal c))).

(** [connection.close()] (line 258): nothing is committed; what is pending
    is dropped.  Closing a closed connection does nothing. *)
Definition connection_close : M unit :=
  fun c => (inr tt, mkConnection Closed (cursor_closed c) (foreign_keys c)
                                 (durable c) None).

(** Lines 257-258. *)
Definition close : M unit := cursor_close ;; connection_close.

(** The file once the process has ended: an exception nobody catches ends
    the script, and the connection goes away without a commit. *)
Definition at_exit {A} (r : (Error + A) * Connection) : Database :=
  durable (snd r).

(** ** Statements that change data *)

(** The integers a statement can bind and a column can store. *)
Definition in_int64 (z : Z) : bool :=
  (- 2 ^ 63 <=? z) && (z <? 2 ^ 63).

(** The largest rowid a table holds or has held: the counter kept in
    [sqlite_sequence] or the rowid of the last row, whichever is greater;
    a table without rows counts as ending at 0. *)
Definition last_rowid (ids : list Z) (seq : Z) : Z :=
  Z.max seq (match ids with
             | [] => 0
             | i :: ids' => fold_right Z.max i ids'
             end).

(** The rowid an AUTOINCREMENT table gives the next row: one more than the
    largest rowid the table holds or has ever held.  When that one is the
    largest rowid there is, 2^63 - 1, the insert fails ("database or disk
    is full"). *)
Definition next_rowid (ids : list Z) (seq : Z) : Error + Z :=
  if 2 ^ 63 - 1 <=? last_rowid ids seq then inl OperationalError
  else inr (last_rowid ids seq + 1).

Definition UserParams : Type := string * Z * string * option string.
Definition OrderParams : Type := Z * string * Z.

(** [INSERT INTO users (name, age, email, city) VALUES (?, ?, ?, ?)]
    (lines 26, 204).  The age is bound first, and must fit in 64 bits;
    the engine then takes the rowid, and only then checks that [email] is
    UNIQUE. *)
Definition INSERT_INTO_users (p : UserParams) (fk : bool) (d : Database)
    : Error + (Z * Database) :=
  let '(n, a, e, c) := p in
  if negb (in_int64 a) then inl OverflowError
  else
    match next_rowid (map id (users d)) (users_seq d) with
    | inl err => inl err
    | inr i =>
        if existsb (fun u => (email u =? e)%string) (users d)
        then inl (IntegrityError UNIQUE_users_email)
        else inr (1, set_users d (users d ++ [mkUser i n a e c]) i)
    end.

Definition user_exists (k : Z) (us : list User) : bool :=
  existsb (fun u => id u =? k) us.

(** [INSERT INTO orders (user_id, product_name, quantity) VALUES (?, ?, ?)]
    (lines 112, 208).  The user id and the quantity are bound first, and
    must fit in 64 bits; the engine then takes the rowid; the reference to
    [users (id)] is checked only when the connection enforces foreign
    keys. *)
Definition INSERT_INTO_orders (p : OrderParams) (fk : bool) (d : Database)
    : Error + (Z * Database) :=
  let '(k, pn, q) := p in
  if negb (in_int64 k && in_int64 q) then inl OverflowError
  else
    match next_rowid (map order_id (orders d)) (orders_seq d) with
    | inl err => inl err
    | inr i =>
        if fk && negb (user_exists k (users d))
        then inl (IntegrityError FOREIGN_KEY)
        else inr (1, set_orders d (orders d ++ [mkOrder i (Some k) pn q]) i)
    end.

Definition set_age (v : Z) (u : User) : User :=
  mkUser (id u) (name u) v (email u) (city u).

(** The row stored under rowid [r] rewritten to [new]. *)
Fixpoint write_row (r : Z) (new : User) (us : list User) : list User :=
  match us with
  | [] => []
  | u :: us' => if id u =? r then new :: us' else u :: write_row r new us'
  end.

(** The body of the trigger (line 250):
    [UPDATE users SET age = NEW.age WHERE id = OLD.id].  It runs inside the
    statement that fired it and does not fire the trigger again. *)
Definition trigger_body (old new : User) (us : list User) : list User :=
  map (fun u => if id u =? id old then set_age (age new) u else u) us.

(** One row of [UPDATE users SET age = v]: the row is read, rewritten, and
    then the AFTER UPDATE OF age trigger runs if the schema has it. *)
Definition update_row (trig : bool) (v : Z) (us : list User) (r : Z) : list User :=
  match find (fun u => id u =? r) us with
  | None => us
  | Some old =>
      let new := set_age v old in
      let us1 := write_row r new us in
      if trig then trigger_body old new us1 else us1
  end.

(** [UPDATE users SET age = ? WHERE name = ?]; line 82 binds the name and
    has the age 31 in the text.  The rowids that match are collected first,
    then updated one by one. *)
Definition UPDATE_users_SET_age (v : Z) (key : string) (fk : bool) (d : Database)
    : Error + (Z * Database) :=
  let rowids := map id (filter (fun u => (name u =? key)%string) (users d)) in
  let us := fold_left (update_row (update_user_age d) v) rowids (users d) in
  inr (Z.of_nat (List.length rowids), set_users d us (users_seq d)).

(** Does an order point at one of the rows [gone]? *)
Definition references (gone : list User) (o : Order) : bool :=
  match user_id o with
  | Some k => user_exists k gone
  | None => false
  end.

(** [DELETE FROM users WHERE name = ?] (line 86).  The foreign key of
    [orders] has no ON DELETE action: when it is enforced, the statement
    fails if an order points at a deleted row; the orders are never
    touched. *)
Definition DELETE_FROM_users (key : string) (fk : bool) (d : Database)
    : Error + (Z * Database) :=
  let gone := filter (fun u => (name u =? key)%string) (users d) in
  let kept := filter (fun u => negb (name u =? key)%string) (users d) in
  if fk && existsb (references gone) (orders d)
  then inl (IntegrityError FOREIGN_KEY)
  else inr (Z.of_nat (List.length gone), set_users d kept (users_seq d)).

(** ** Queries *)

(** [SELECT * FROM users] (lines 31, 91, 227) *)
Definition SELECT_users (d : Database) : Error + list User :=
  inr (users d).

(** [SELECT * FROM orders] (lines 116, 233) *)
Definition SELECT_orders (d : Database) : Error + list Order :=
  inr (orders d).

(** [SELECT * FROM users WHERE age > 30] (line 45) *)
Definition SELECT_users_WHERE_age_gt_30 (d : Database) : Error + list User :=
  inr (filter (fun u => 30 <? age u) (users d)).

(** The row of [users] an order joins with: [users.id] is the rowid, so
    the row is looked up by it. *)
Definition user_of (us : list User) (o : Order) : option User :=
  match user_id o with
  | Some k => find (fun u => id u =? k) us
  | None => None
  end.

(** [SELECT users.name, orders.product_name, orders.quantity FROM users
    INNER JOIN orders ON users.id = orders.user_id] (lines 123-127): the
    orders are scanned and the user of each is looked up. *)
Definition inner_join (us : list User) (os : list Order) : list (string * string * Z) :=
  flat_map (fun o => match user_of us o with
                     | Some u => [(name u, product_name o, quantity o)]
                     | None => []
                     end) os.

Definition SELECT_join (d : Database) : Error + list (string * string * Z) :=
  inr (inner_join (users d) (orders d)).

(** [SELECT * FROM user_orders_view] (line 142): the view stores no rows,
    its SELECT (lines 135-137) is run on the tables as they are now. *)
Definition SELECT_user_orders_view (d : Database) : Error + list (string * string * Z) :=
  if user_orders_view d
  then inr (inner_join (users d) (orders d))
  else inl OperationalError.

(** [SELECT COUNT( * ) FROM users] (line 150) *)
Definition SELECT_COUNT_users (d : Database) : Error + Z :=
  inr (Z.of_nat (List.length (users d))).

(** [SELECT AVG(age) FROM users] (line 155): NULL when there is no row. *)
Definition SELECT_AVG_age (d : Database) : Error + option Q :=
  match users d with
  | [] => inr None
  | us => inr (Some (Qdiv (inject_Z (fold_right Z.add 0 (map age us)))
                           (inject_Z (Z.of_nat (List.length us)))))
  end.

(** [SELECT MAX(age) from users] (line 160): NULL when there is no row. *)
Definition SELECT_MAX_age (d : Database) : Error + option Z :=
  match map age (users d) with
  | [] => inr None
  | a :: l => inr (Some (fold_left Z.max l a))
  end.

(** The running total of SUM over integers: the engine gives up with
    "integer overflow" as soon as the total leaves the 64-bit range. *)
Fixpoint sum_step (acc : Z) (l : list Z) : Error + Z :=
  match l with
  | [] => inr acc
  | q :: l' => if in_int64 (acc + q) then sum_step (acc + q) l'
               else inl OperationalError
  end.

(** [SELECT SUM(quantity) FROM orders] (line 165): NULL when there is no
    row. *)
Definition SELECT_SUM_quantity (d : Database) : Error + option Z :=
  match map quantity (orders d) with
  | [] => inr None
  | l => match sum_step 0 l with
         | inl e => inl e
         | inr s => inr (Some s)
         end
  end.

(** *** GROUP BY and HAVING (lines 174-193) *)

Definition orders_of (u : User) (os : list Order) : list Order :=
  filter (fun o => match user_id o with
                   | Some k => id u =? k
                   | None => false
                   end) os.

(** [users u LEFT JOIN orders o ON u.id = o.user_id]: every user with each
    of its orders, and with a NULL order when it has none. *)
Definition left_join (us : list User) (os : list Order) : list (User * option Order) :=
  flat_map (fun u => match orders_of u os with
                     | [] => [(u, None)]
                     | l => map (fun o => (u, Some o)) l
                     end) us.

(** The groups of [GROUP BY u.name]: the names that occur, each once, in
    the byte order of the column. *)
Fixpoint insert_name (n : string) (l : list string) : list string :=
  match l with
  | [] => [n]
  | m :: l' =>
      match String.compare n m with
      | Lt => n :: l
      | Eq => l
      | Gt => m :: insert_name n l'
      end
  end.

Definition group_keys (rows : list (User * option Order)) : list string :=
  fold_right insert_name [] (map (fun r => name (fst r)) rows).

(** [COUNT(o.order_id)] within the group of name [n]: the joined rows of
    that group whose order is not NULL. *)
Definition COUNT_order_id (n : string) (rows : list (User * option Order)) : Z :=
  Z.of_nat (List.length (filter (fun r => (name (fst r) =? n)%string
                                          && match snd r with
                                             | Some _ => true
                                             | None => false
                                             end) rows)).

Definition group_order_counts (us : list User) (os : list Order) : list (string * Z) :=
  let rows := left_join us os in
  map (fun n => (n, COUNT_order_id n rows)) (group_keys rows).

(** Lines 174-179. *)
Definition SELECT_order_counts (d : Database) : Error + list (string * Z) :=
  inr (group_order_counts (users d) (orders d)).

(** Lines 185-191: the same with [HAVING COUNT(o.order_id) > 1]. *)
Definition SELECT_order_counts_HAVING (d : Database) : Error + list (string * Z) :=
  inr (filter (fun g => 1 <? snd g) (group_order_counts (users d) (orders d))).

(** ** The script *)

Definition users_data : list UserParams :=
  [ ("Alice", 30, "alice@example.com", Some "New York");
    ("Bob", 25, "bob@example.com", Some "Los Angeles");
    ("Charlie", 35, "charlie@example.com", Some "Chicago");
    ("David", 40, "david@example.com", Some "Houston") ].

Definition orders_data : list OrderParams :=
  [ (1, "Laptop", 1);
    (1, "Mouse", 2);
    (3, "Keyboard", 1);
    (4, "Monitor", 2) ].

(** Lines 26-27: the bulk insert and its commit. *)
Definition seed_users (batch : list UserParams) : M unit :=
  executemany INSERT_INTO_users batch ;; commit.

(** Lines 112-113. *)
Definition seed_orders (batch : list OrderParams) : M unit :=
  executemany INSERT_INTO_orders batch ;; commit.

(** Lines 82-83, with the age and the name as parameters. *)
Definition update_user (v : Z) (key : string) : M Z :=
  n <- execute_dml (UPDATE_users_SET_age v key) ;; commit ;; ret n.

(** Lines 86-87. *)
Definition delete_user (key : string) : M Z :=
  n <- execute_dml (DELETE_FROM_users key) ;; commit ;; ret n.

(** What the transaction block prints first. *)
Inductive Outcome :=
| Committed
| RolledBack (e : Error).

(** Lines 199-222: both handlers roll back and print the error. *)
Definition transaction (u : UserParams) (o : OrderParams) : M Outcome :=
  try_except
    (execute_BEGIN ;;
     execute_dml (INSERT_INTO_users u) ;;
     execute_dml (INSERT_INTO_orders o) ;;
     commit ;;
     ret Committed)
    (fun e => rollback ;; ret (RolledBack e)).

Definition Eve : UserParams := ("Eve", 28, "eve@newdomain.com", Some "Miami").
Definition Tablet : OrderParams := (999, "Tablet", 1).

(** Lines 199-235: the block and the two listings of its [finally]. *)
Definition transaction_block : M (Outcome * list User * list Order) :=
  t <- transaction Eve Tablet ;;
  us <- execute_query SELECT_users ;;
  os <- execute_query SELECT_orders ;;
  ret (t, us, os).

(** What the script prints from the statements embedded here. *)
Record Printed := mkPrinted {
  older_than_30 : list User;
  updated_users : list User;
  listed_orders : list Order;
  user_orders : list (string * string * Z);
  user_orders_from_view : list (string * string * Z);
  user_count : Z;
  average_age : option Q;
  max_age : option Z;
  total_quantity : option Z;
  orders_per_user : list (string * Z);
  more_than_1_order : list (string * Z);
  after_transaction : Outcome * list User * list Order
}.

(** The script from line 8 to line 258.  The listings of lines 30-41 and
    49-78, which only read, are left out. *)
Definition script : M Printed :=
  execute_ddl (fun d => d) ;;
  seed_users users_data ;;
  p1 <- execute_query SELECT_users_WHERE_age_gt_30 ;;
  update_user 31 "Alice" ;;
  delete_user "Bob" ;;
  p2 <- execute_query SELECT_users ;;
  execute_ddl (fun d => d) ;;
  seed_orders orders_data ;;
  p2' <- execute_query SELECT_orders ;;
  p3 <- execute_query SELECT_join ;;
  execute_ddl set_view ;;
  p4 <- execute_query SELECT_user_orders_view ;;
  p5 <- execute_query SELECT_COUNT_users ;;
  p6 <- execute_query SELECT_AVG_age ;;
  p7 <- execute_query SELECT_MAX_age ;;
  p8 <- execute_query SELECT_SUM_quantity ;;
  p9 <- execute_query SELECT_order_counts ;;
  p10 <- execute_query SELECT_order_counts_HAVING ;;
  p11 <- transaction_block ;;
  execute_ddl set_trigger ;;
  close ;;
  ret (mkPrinted p1 p2 p2' p3 p4 p5 p6 p7 p8 p9 p10 p11).

(** Running the script on a file, and the file it leaves behind. *)
Definition run (file : Database) : (Error + Printed) * Connection :=
  script (connect file).

(** ** Notions used in the statements *)

(** The connection is open and so is its cursor. *)
Definition usable (c : Connection) : Prop :=
  handle c = Open /\ cursor_closed c = false.

(** The file after the bulk insert of [users_data] into empty tables. *)
Definition seeded : Connection :=
  Eval vm_compute in snd (seed_users users_data (connect empty_db)).

(** A connection to a file with the single user Alice. *)
Definition quiet_key_conn : Connection :=
  connect (mkDatabase [mkUser 1 "Alice" 30 "alice@example.com" None] [] 1 0 false false).

(** [id] and [order_id] are primary keys: no two rows of a table share
    one. *)
Definition keyed (d : Database) : Prop :=
  NoDup (map id (users d)) /\ NoDup (map order_id (orders d)).

(** The database with the trigger taken out of the schema. *)
Definition without_trigger (d : Database) : Database :=
  mkDatabase (users d) (orders d) (users_seq d) (orders_seq d) (user_orders_view d) false.

(** The email bound by a parameter tuple of the insert into [users]. *)
Definition email_of (p : UserParams) : string :=
  let '(_, _, e, _) := p in e.

(** Some record of the batch carries an email that is already in the table
    or that an earlier record of the batch carries. *)
Definition duplicate_email (present : list string) (batch : list UserParams) : Prop :=
  exists pre p post,
    batch = pre ++ p :: post /\ In (email_of p) (present ++ map email_of pre).

(** The age bound by a parameter tuple of the insert into [users]. *)
Definition age_of (p : UserParams) : Z :=
  let '(_, a, _, _) := p in a.

(** Every age of the batch fits in 64 bits. *)
Definition storable (batch : list UserParams) : Prop :=
  forall p, In p batch -> in_int64 (age_of p) = true.

(** Every user id and every quantity of the batch fits in 64 bits. *)
Definition storable_orders (batch : list OrderParams) : Prop :=
  forall p, In p batch ->
    in_int64 (fst (fst p)) = true /\ in_int64 (snd p) = true.

(** A table whose last rowid is [last] has rowids left for [n] more
    rows. *)
Definition room (last : Z) (n : nat) : Prop :=
  last + Z.of_nat n <= 2 ^ 63 - 1.

(** A batch whose third record repeats the email of the first. *)
Definition clash : list UserParams :=
  [ ("Ann", 20, "ann@example.com", None);
    ("Bea", 21, "bea@example.com", None);
    ("Cy", 22, "ann@example.com", None) ].

(** The script's tables once the four orders are in (line 113), had no
    user been deleted before. *)
Definition with_orders : Connection :=
  Eval vm_compute in
    snd ((seed_users users_data ;; seed_orders orders_data) (connect empty_db)).

(** The calls the script makes on the store, one constructor per
    operation; [call] runs one and drops what it returns. *)
Inductive Call :=
| Create_tables
| Seed_users (batch : list UserParams)
| Seed_orders (batch : list OrderParams)
| Query_users
| Query_orders
| Query_older_than_30
| Update_user (v : Z) (key : string)
| Delete_user (key : string)
| Join_user_orders
| Create_view
| Read_view
| Aggregate_COUNT
| Aggregate_AVG
| Aggregate_MAX
| Aggregate_SUM
| Group_order_counts
| Group_order_counts_having
| Run_transaction (u : UserParams) (o : OrderParams)
| Begin
| Commit
| Rollback
| Define_trigger.

(** The call made for its effect, the value dropped. *)
Definition forget {A} (m : M A) : M unit := m ;; ret tt.

(** The piece of script behind each operation. *)
Definition call (op : Call) : M unit :=
  match op with
  | Create_tables => execute_ddl (fun d => d)
  | Seed_users batch => seed_users batch
  | Seed_orders batch => seed_orders batch
  | Query_users => forget (execute_query SELECT_users)
  | Query_orders => forget (execute_query SELECT_orders)
  | Query_older_than_30 => forget (execute_query SELECT_users_WHERE_age_gt_30)
  | Update_user v key => forget (update_user v key)
  | Delete_user key => forget (delete_user key)
  | Join_user_orders => forget (execute_query SELECT_join)
  | Create_view => execute_ddl set_view
  | Read_view => forget (execute_query SELECT_user_orders_view)
  | Aggregate_COUNT => forget (execute_query SELECT_COUNT_users)
  | Aggregate_AVG => forget (execute_query SELECT_AVG_age)
  | Aggregate_MAX => forget (execute_query SELECT_MAX_age)
  | Aggregate_SUM => forget (execute_query SELECT_SUM_quantity)
  | Group_order_counts => forget (execute_query SELECT_order_counts)
  | Group_order_counts_having => forget (execute_query SELECT_order_counts_HAVING)
  | Run_transaction u o => forget (transaction u o)
  | Begin => execute_BEGIN
  | Commit => commit
  | Rollback => rollback
  | Define_trigger => execute_ddl set_trigger
  end.

(** A caller that goes on after an exception: the calls one after the
    other, each on the connection the one before left. *)
Definition run_calls (ops : list Call) (c : Connection) : Connection :=
  fold_left (fun c op => snd (call op c)) ops c.

(** A property of the connection that a piece of script keeps, whether it
    returns or raises. *)
Definition preserves {A} (P : Connection -> Prop) (m : M A) : Prop :=
  forall c, P c -> P (snd (m c)).

(** A piece of script that does nothing on a closed handle but raise. *)
Definition refused {A} (m : M A) : Prop :=
  forall c, handle c = Closed -> m c = (inl ProgrammingError, c).

(** The three states of the spec: no handle yet, the open handle, the
    closed handle. *)
Inductive Store :=
| Unopened (file : Database)
| Live (c : Connection).

(** The state of the handle, [None] while there is none. *)
Definition state_of (s : Store) : option Handle :=
  match s with
  | Unopened _ => None
  | Live c => Some (handle c)
  end.

(** [I] holds of what the connection sees and of what it would go back
    to. *)
Definition holds (I : Database -> Prop) (c : Connection) : Prop :=
  I (db c) /\ I (durable c).

(** A statement that, when it succeeds, takes a database satisfying [I]
    to one satisfying [I]. *)
Definition kept_by (I : Database -> Prop) {A}
    (stmt : bool -> Database -> Error + (A * Database)) : Prop :=
  forall fk d a d', I d -> stmt fk d = inr (a, d') -> I d'.

(** The schema has [user_orders_view]. *)
Definition has_view (d : Database) : Prop := user_orders_view d = true.

(** A file that an earlier use left with one user, rowid 3, who is also
    called Alice. *)
Definition stale_file : Database :=
  mkDatabase [mkUser 3 "Alice" 52 "alice@old.example" None] [] 3 0 false false.

(** The number of orders of a user. *)
Definition order_count (os : list Order) (u : User) : Z :=
  Z.of_nat (List.length (orders_of u os)).

(** The joined rows of one user. *)
Definition user_rows (os : list Order) (u : User) : list (User * option Order) :=
  match orders_of u os with
  | [] => [(u, None)]
  | l => map (fun o => (u, Some o)) l
  end.

(** The test [COUNT(o.order_id)] applies to the rows of the group [n]. *)
Definition counted (n : string) (r : User * option Order) : bool :=
  (name (fst r) =? n)%string && match snd r with
                                | Some _ => true
                                | None => false
                                end.

(** ** The listings of lines 30-78 *)

(** [SELECT name, age FROM users] (line 39) *)
Definition SELECT_name_age (d : Database) : Error + list (string * Z) :=
  inr (map (fun u => (name u, age u)) (users d)).

(** A piece of the pattern of LIKE: [%] or a character to be found as it
    is, letter case apart. *)
Inductive Wild :=
| Any
| Lit (c : ascii).

(** The pattern of line 51, ['%@example.com']: one [%], then characters
    none of which is [%] or [_]. *)
Definition like_pattern : list Wild :=
  Any :: map Lit (list_ascii_of_string "@example.com").

(** LIKE folds the upper-case letters of ASCII to lower case, and no other
    character. *)
Definition to_lower (c : ascii) : ascii :=
  let n := N_of_ascii c in
  if ((65 <=? n) && (n <=? 90))%N then ascii_of_N (n + 32) else c.

Definition same_letter (c d : ascii) : bool :=
  Ascii.eqb (to_lower c) (to_lower d).

(** The engine reads the text it matches up to the first zero byte. *)
Fixpoint c_str (s : list ascii) : list ascii :=
  match s with
  | [] => []
  | c :: s' => if Ascii.eqb c zero then [] else c :: c_str s'
  end.

(** The matcher: [%] stands for any run of characters, possibly empty. *)
Fixpoint like (p : list Wild) : list ascii -> bool :=
  match p with
  | [] => fun s => match s with
                   | [] => true
                   | _ :: _ => false
                   end
  | Any :: p' =>
      fix any (s : list ascii) : bool :=
        like p' s || match s with
                     | [] => false
                     | _ :: s' => any s'
                     end
  | Lit c :: p' =>
      fun s => match s with
               | [] => false
               | d :: s' => same_letter c d && like p' s'
               end
  end.

Definition LIKE (p : list Wild) (s : string) : bool :=
  like p (c_str (list_ascii_of_string s)).

(** [SELECT * FROM users WHERE email LIKE '%@example.com'] (line 51) *)
Definition SELECT_users_WHERE_email_LIKE (d : Database) : Error + list User :=
  inr (filter (fun u => LIKE like_pattern (email u)) (users d)).

(** [city IN ('New York', 'Chicago')]: never true of a NULL city. *)
Definition city_IN (u : User) : bool :=
  match city u with
  | Some c => (c =? "New York")%string || (c =? "Chicago")%string
  | None => false
  end.

(** [SELECT * FROM users WHERE city IN ('New York', 'Chicago')] (line 57) *)
Definition SELECT_users_WHERE_city_IN (d : Database) : Error + list User :=
  inr (filter city_IN (users d)).

(** The sorter of [ORDER BY age ASC].  The rows are put in from the last
    one of the table to the first, each before the first row whose age is
    not smaller: rows of one age come out in table order. *)
Fixpoint insert_by_age (u : User) (l : list User) : list User :=
  match l with
  | [] => [u]
  | x :: l' => if age u <=? age x then u :: l else x :: insert_by_age u l'
  end.

(** [SELECT * FROM users ORDER BY age ASC] (line 64) *)
Definition SELECT_users_ORDER_BY_age (d : Database) : Error + list User :=
  inr (fold_right insert_by_age [] (users d)).

(** The sorter of [ORDER BY name DESC].  The rows are put in from the last
    one of the table to the first, each before the first row whose name is
    not greater in byte order: rows of one name come out in table order. *)
Fixpoint insert_by_name_desc (u : User) (l : list User) : list User :=
  match l with
  | [] => [u]
  | x :: l' =>
      match String.compare (name x) (name u) with
      | Gt => x :: insert_by_name_desc u l'
      | _ => u :: l
      end
  end.

(** [SELECT * FROM users ORDER BY name DESC] (line 69) *)
Definition SELECT_users_ORDER_BY_name_DESC (d : Database) : Error + list User :=
  inr (fold_right insert_by_name_desc [] (users d)).

(** [SELECT * FROM users LIMIT 2] (line 76) *)
Definition SELECT_users_LIMIT_2 (d : Database) : Error + list User :=
  inr (firstn 2 (users d)).

(** What lines 30-78 print. *)
Record Listings := mkListings {
  all_users : list User;
  names_and_ages : list (string * Z);
  older : list User;
  at_example_com : list User;
  in_two_cities : list User;
  by_age : list User;
  by_name_desc : list User;
  first_two : list User
}.

(** Lines 30-78, in the order of the script. *)
Definition listings : M Listings :=
  l1 <- execute_query SELECT_users ;;
  l2 <- execute_query SELECT_name_age ;;
  l3 <- execute_query SELECT_users_WHERE_age_gt_30 ;;
  l4 <- execute_query SELECT_users_WHERE_email_LIKE ;;
  l5 <- execute_query SELECT_users_WHERE_city_IN ;;
  l6 <- execute_query SELECT_users_ORDER_BY_age ;;
  l7 <- execute_query SELECT_users_ORDER_BY_name_DESC ;;
  l8 <- execute_query SELECT_users_LIMIT_2 ;;
  ret (mkListings l1 l2 l3 l4 l5 l6 l7 l8).

(** [l] with some of its elements left out, the others in their order. *)
Inductive Subseq {A} : list A -> list A -> Prop :=
| Subseq_nil : Subseq [] []
| Subseq_skip x l l' : Subseq l l' -> Subseq l (x :: l')
| Subseq_take x l l' : Subseq l l' -> Subseq (x :: l) (x :: l').

(** ** More notions used in the statements *)

(** The row an insert builds from its parameters and the rowid. *)
Definition user_row (i : Z) (p : UserParams) : User :=
  let '(n, a, e, c) := p in mkUser i n a e c.

Definition order_row (i : Z) (p : OrderParams) : Order :=
  let '(k, pn, q) := p in mkOrder i (Some k) pn q.

(** The rows of a batch, numbered from [i + 1] on. *)
Fixpoint numbered {P R} (row : Z -> P -> R) (i : Z) (ps : list P) : list R :=
  match ps with
  | [] => []
  | p :: ps' => row (i + 1) p :: numbered row (i + 1) ps'
  end.

(** No record of the batch carries an email that is in the table or that
    another record of the batch carries. *)
Definition fresh_emails (present : list string) (batch : list UserParams) : Prop :=
  NoDup (map email_of batch) /\
  forall p, In p batch -> ~ In (email_of p) present.

(** The counters of [sqlite_sequence] are not behind the tables. *)
Definition bounded (d : Database) : Prop :=
  (forall u, In u (users d) -> id u <= users_seq d) /\
  (forall o, In o (orders d) -> order_id o <= orders_seq d).

(** Every order points at a row of [users]. *)
Definition referential (d : Database) : Prop :=
  forall o, In o (orders d) -> user_of (users d) o <> None.

(** The text, read up to its first zero byte, ends in [@example.com],
    the case of ASCII letters apart. *)
Definition ends_in_example_com (e : string) : Prop :=
  exists pre suf,
    c_str (list_ascii_of_string e) = pre ++ suf /\
    map to_lower suf = list_ascii_of_string "@example.com".

(** [a] does not come after [b] in the order of [ORDER BY name DESC]. *)
Definition name_ge (a b : User) : Prop :=
  String.compare (name a) (name b) <> Lt.

(** When [m] starts from a connection satisfying [P] and returns, the
    connection it leaves satisfies [Q]. *)
Definition triple {A} (P : Connection -> Prop) (m : M A) (Q : Connection -> Prop) : Prop :=
  forall c a c', P c -> m c = (inr a, c') -> Q c'.

(** The name and the email of a row. *)
Definition who (u : User) : string * string := (name u, email u).

(** The users table holds the first record of [users_data]. *)
Definition has_alice (d : Database) : Prop :=
  In ("Alice", "alice@example.com") (map who (users d)).

(** A file that holds a user with the email of the second record of
    [users_data]. *)
Definition stale_file_2 : Database :=
  mkDatabase [mkUser 1 "Robert" 61 "bob@example.com" None] [] 1 0 false false.

(** The joined row carries an order. *)
Definition has_order (r : User * option Order) : bool :=
  match snd r with
  | Some _ => true
  | None => false
  end.

(** The order points at the user. *)
Definition points_at (o : Order) (u : User) : bool :=
  match user_id o with
  | Some k => id u =? k
  | None => false
  end.

(** ** Calls on an open and on a closed handle *)

Lemma check_cursor_usable (c : Connection) :
  usable c -> check_cursor c = (inr tt, c).
Proof.
  intros [Hh Hc]. unfold check_cursor. now rewrite Hc, Hh.
Qed.

Lemma check_connection_open (c : Connection) :
  handle c = Open -> check_connection c = (inr tt, c).
Proof.
  intros Hh. unfold check_connection. now rewrite Hh.
Qed.

Lemma check_cursor_closed (c : Connection) :
  handle c = Closed -> check_cursor c = (inl ProgrammingError, c).
Proof.
  intros Hh. unfold check_cursor. rewrite Hh. now destruct (cursor_closed c).
Qed.

Lemma check_connection_closed (c : Connection) :
  handle c = Closed -> check_connection c = (inl ProgrammingError, c).
Proof.
  intros Hh. unfold check_connection. now rewrite Hh.
Qed.

Lemma execute_query_usable {A} (q : Database -> Error + A) (c : Connection) :
  usable c ->
  execute_query q c = (match q (db c) with inl e => inl e | inr a => inr a end, c).
Proof.
  intros Hu. unfold execute_query, bind.
  rewrite (check_cursor_usable _ Hu). now destruct (q (db c)).
Qed.

Lemma usable_begin_implicit (c : Connection) :
  usable c -> usable (snd (begin_implicit c)).
Proof.
  unfold begin_implicit. now destruct (journal c).
Qed.

Lemma durable_begin_implicit (c : Connection) :
  durable (snd (begin_implicit c)) = durable c.
Proof.
  unfold begin_implicit, durable. destruct (journal c) eqn:E; simpl.
  - now rewrite E.
  - reflexivity.
Qed.

Lemma db_begin_implicit (c : Connection) :
  db (snd (begin_implicit c)) = db c.
Proof.
  unfold begin_implicit. now destruct (journal c).
Qed.

Lemma fst_begin_implicit (c : Connection) :
  fst (begin_implicit c) = inr tt.
Proof.
  unfold begin_implicit. now destruct (journal c).
Qed.

(** A data-changing statement on a usable connection: the BEGIN, then the
    statement on what the connection sees. *)
Lemma execute_dml_usable stmt (c : Connection) :
  usable c ->
  execute_dml stmt c = step stmt (snd (begin_implicit c)).
Proof.
  intros Hu. unfold execute_dml, bind.
  rewrite (check_cursor_usable _ Hu).
  destruct (begin_implicit c) as [r c1] eqn:E.
  pose proof (fst_begin_implicit c) as F. rewrite E in F. simpl in F.
  now subst r.
Qed.

(** ** Filtering by age *)

Lemma SELECT_age_gt_30_rows (d : Database) :
  exists rows, SELECT_users_WHERE_age_gt_30 d = inr rows /\
               forall u, In u rows <-> In u (users d) /\ 30 < age u.
Proof.
  eexists. split; [reflexivity|].
  intros u. rewrite filter_In, Z.ltb_lt. tauto.
Qed.

(** C3.  On every usable connection, whatever the users table holds, the
    query with [WHERE age > 30] succeeds, leaves the connection as it was,
    and returns the rows of the table whose age exceeds 30 and no other
    row; once [users_data] (ages 30, 25, 35, 40) is inserted into empty
    tables, the rows returned are those of ages 35 and 40. *)
Theorem query_age_gt_30_exact :
  (forall c, usable c ->
     exists rows,
       execute_query SELECT_users_WHERE_age_gt_30 c = (inr rows, c) /\
       forall u, In u rows <-> In u (users (db c)) /\ 30 < age u) /\
  (map age (users (db seeded)) = [30; 25; 35; 40] /\
   exists rows,
     execute_query SELECT_users_WHERE_age_gt_30 seeded = (inr rows, seeded) /\
     map age rows = [35; 40]).
Proof.
  split.
  - intros c Hu. rewrite (execute_query_usable _ _ Hu).
    destruct (SELECT_age_gt_30_rows (db c)) as [rows [E H]].
    exists rows. now rewrite E.
  - split; [reflexivity|]. eexists. split; reflexivity.
Qed.

(** ** Mutations that match no row *)

Lemma no_match_filter (key : string) (us : list User) :
  (forall u, In u us -> name u <> key) ->
  filter (fun u => (name u =? key)%string) us = [] /\
  filter (fun u => negb (name u =? key)%string) us = us.
Proof.
  induction us as [|u us IH]; intros H; simpl; [easy|].
  assert (Hu : (name u =? key)%string = false).
  { apply String.eqb_neq. apply H. now left. }
  rewrite Hu. simpl.
  destruct IH as [IH1 IH2]; [intros; apply H; now right|].
  now rewrite IH1, IH2.
Qed.

Lemma set_users_same (d : Database) :
  set_users d (users d) (users_seq d) = d.
Proof. now destruct d. Qed.

Lemma set_db_same (c : Connection) : set_db c (db c) = c.
Proof. now destruct c. Qed.

Lemma UPDATE_no_match (v : Z) (key : string) (fk : bool) (d : Database) :
  (forall u, In u (users d) -> name u <> key) ->
  UPDATE_users_SET_age v key fk d = inr (0, d).
Proof.
  intros H. unfold UPDATE_users_SET_age.
  destruct (no_match_filter key (users d) H) as [E _].
  rewrite E. simpl. now rewrite set_users_same.
Qed.

Lemma DELETE_no_match (key : string) (fk : bool) (d : Database) :
  (forall u, In u (users d) -> name u <> key) ->
  DELETE_FROM_users key fk d = inr (0, d).
Proof.
  intros H. unfold DELETE_FROM_users.
  destruct (no_match_filter key (users d) H) as [E1 E2].
  rewrite E1, E2.
  assert (X : existsb (references []) (orders d) = false).
  { induction (orders d) as [|o os IH]; simpl; [easy|].
    rewrite IH. unfold references. now destruct (user_id o). }
  rewrite X, andb_false_r. simpl. now rewrite set_users_same.
Qed.

(** A statement that changes nothing, followed by the commit. *)
Lemma dml_commit_unchanged stmt (c : Connection) :
  usable c ->
  stmt (foreign_keys c) (db c) = inr (0, db c) ->
  (n <- execute_dml stmt ;; commit ;; ret n) c = (inr 0, set_journal c None).
Proof.
  intros Hu Hs. unfold bind at 1. rewrite (execute_dml_usable _ _ Hu).
  unfold step, begin_implicit.
  destruct Hu as [Hh Hc].
  destruct (journal c) eqn:J; simpl; rewrite Hs; unfold commit, bind, ret,
    check_connection, set_journal, set_db; simpl; rewrite Hh; reflexivity.
Qed.

(** C4.  When no row of [users] has the name given as key, [update_user]
    and [delete_user] both return the count 0 without raising, and the
    connection afterwards sees the same database, row for row; the commit
    that follows has closed whatever transaction was open. *)
Theorem mutation_without_match (c : Connection) (v : Z) (key : string) :
  usable c ->
  (forall u, In u (users (db c)) -> name u <> key) ->
  exists c1 c2,
    update_user v key c = (inr 0, c1) /\ db c1 = db c /\ durable c1 = db c /\
    delete_user key c = (inr 0, c2) /\ db c2 = db c /\ durable c2 = db c.
Proof.
  intros Hu Hn.
  exists (set_journal c None), (set_journal c None).
  unfold update_user, delete_user.
  rewrite !dml_commit_unchanged; auto using UPDATE_no_match, DELETE_no_match.
  repeat split.
Qed.

Lemma mutation_without_match_witness :
  exists c1 c2,
    update_user 31 "Zed" quiet_key_conn = (inr 0, c1) /\
    db c1 = db quiet_key_conn /\ durable c1 = db quiet_key_conn /\
    delete_user "Zed" quiet_key_conn = (inr 0, c2) /\
    db c2 = db quiet_key_conn /\ durable c2 = db quiet_key_conn.
Proof.
  apply (mutation_without_match quiet_key_conn 31 "Zed").
  - split; reflexivity.
  - simpl. intros u [H | []]. subst u. simpl. discriminate.
Defined.

Lemma query_age_gt_30_exact_witness :
  exists rows,
    execute_query SELECT_users_WHERE_age_gt_30 seeded = (inr rows, seeded) /\
    forall u, In u rows <-> In u (users (db seeded)) /\ 30 < age u.
Proof.
  apply (proj1 query_age_gt_30_exact seeded). split; reflexivity.
Defined.

(** ** Aggregates over empty tables *)

(** C6.  On a usable connection whose users table has no row, AVG(age)
    and MAX(age) each return one row holding NULL ([None]), without an
    error; SUM(quantity), which the script takes over [orders], returns
    NULL when the orders table has no row. *)
Theorem aggregates_null_on_empty (c : Connection) :
  usable c ->
  (users (db c) = [] ->
     execute_query SELECT_AVG_age c = (inr None, c) /\
     execute_query SELECT_MAX_age c = (inr None, c)) /\
  (orders (db c) = [] ->
     execute_query SELECT_SUM_quantity c = (inr None, c)).
Proof.
  intros Hu. split.
  - intros E. rewrite !execute_query_usable by assumption.
    unfold SELECT_AVG_age, SELECT_MAX_age. rewrite E. split; reflexivity.
  - intros E. rewrite execute_query_usable by assumption.
    unfold SELECT_SUM_quantity. rewrite E. reflexivity.
Qed.

Lemma aggregates_null_on_empty_witness :
  execute_query SELECT_AVG_age (connect empty_db) = (inr None, connect empty_db) /\
  execute_query SELECT_MAX_age (connect empty_db) = (inr None, connect empty_db) /\
  execute_query SELECT_SUM_quantity (connect empty_db) = (inr None, connect empty_db).
Proof.
  destruct (aggregates_null_on_empty (connect empty_db)) as [H1 H2].
  - split; reflexivity.
  - destruct (H1 eq_refl) as [A B]. exact (conj A (conj B (H2 eq_refl))).
Defined.

(** With a row in the table the same queries do not answer NULL. *)
Lemma AVG_MAX_not_null (d : Database) :
  users d <> [] ->
  SELECT_AVG_age d <> inr None /\ SELECT_MAX_age d <> inr None.
Proof.
  unfold SELECT_AVG_age, SELECT_MAX_age.
  destruct (users d) as [|u us]; [congruence|].
  intros _. split; simpl; discriminate.
Qed.

(** ** Rowids are keys *)

Lemma fold_max_ge (ids : list Z) (seq : Z) :
  seq <= fold_right Z.max seq ids /\
  forall i, In i ids -> i <= fold_right Z.max seq ids.
Proof.
  induction ids as [|j ids [IH1 IH2]]; simpl.
  - split; [lia | easy].
  - split; [lia|]. intros i [-> | H]; [lia|]. specialize (IH2 i H). lia.
Qed.

Lemma last_rowid_ge (ids : list Z) (seq : Z) :
  seq <= last_rowid ids seq /\
  forall i, In i ids -> i <= last_rowid ids seq.
Proof.
  unfold last_rowid. split; [lia|].
  destruct ids as [|j ids]; [easy|].
  intros i [<- | Hi].
  - pose proof (proj1 (fold_max_ge ids j)). lia.
  - apply (proj2 (fold_max_ge ids j)) in Hi. lia.
Qed.

Lemma next_rowid_inr (ids : list Z) (seq i : Z) :
  next_rowid ids seq = inr i <->
  i = last_rowid ids seq + 1 /\ last_rowid ids seq < 2 ^ 63 - 1.
Proof.
  unfold next_rowid. destruct (2 ^ 63 - 1 <=? last_rowid ids seq) eqn:E.
  - apply Z.leb_le in E. split; [discriminate | lia].
  - apply Z.leb_gt in E. split.
    + intros H. injection H as <-. now split.
    + intros [-> _]. reflexivity.
Qed.

Lemma next_rowid_fresh (ids : list Z) (seq i : Z) :
  next_rowid ids seq = inr i -> ~ In i ids.
Proof.
  intros E H. apply next_rowid_inr in E. destruct E as [-> _].
  apply (proj2 (last_rowid_ge ids seq)) in H. lia.
Qed.

(** What an insert into [users] that goes through has checked and done. *)
Lemma INSERT_INTO_users_inr (p : UserParams) (fk : bool) (d : Database) n d' :
  INSERT_INTO_users p fk d = inr (n, d') ->
  exists i,
    next_rowid (map id (users d)) (users_seq d) = inr i /\
    ~ In (email_of p) (map email (users d)) /\
    n = 1 /\ d' = set_users d (users d ++ [user_row i p]) i.
Proof.
  destruct p as [[[nm a] e] ct]. unfold INSERT_INTO_users.
  destruct (negb (in_int64 a)); [discriminate|].
  destruct (next_rowid _ _) as [err|i]; [discriminate|].
  destruct (existsb _ _) eqn:X; [discriminate|].
  intros E. injection E as <- <-. exists i. repeat split.
  cbn [email_of]. intros H. apply in_map_iff in H. destruct H as [u [Eu Hu]].
  assert (Y : existsb (fun u => (email u =? e)%string) (users d) = true).
  { apply existsb_exists. exists u. split; [exact Hu|]. now apply String.eqb_eq. }
  congruence.
Qed.

Lemma INSERT_INTO_orders_inr (p : OrderParams) (fk : bool) (d : Database) n d' :
  INSERT_INTO_orders p fk d = inr (n, d') ->
  exists i,
    next_rowid (map order_id (orders d)) (orders_seq d) = inr i /\
    n = 1 /\ d' = set_orders d (orders d ++ [order_row i p]) i.
Proof.
  destruct p as [[k pn] q]. unfold INSERT_INTO_orders.
  destruct (negb (in_int64 k && in_int64 q)); [discriminate|].
  destruct (next_rowid _ _) as [err|i]; [discriminate|].
  destruct (fk && _); [discriminate|].
  intros E. injection E as <- <-. exists i. repeat split.
Qed.

Lemma NoDup_snoc {A} (l : list A) (a : A) :
  NoDup l -> ~ In a l -> NoDup (l ++ [a]).
Proof.
  intros Hl Ha. apply NoDup_app; [assumption | repeat constructor; easy |].
  intros x Hx [<- | []]. contradiction.
Qed.

Lemma filter_keeps_ids_distinct (keep : User -> bool) (us : list User) :
  NoDup (map id us) -> NoDup (map id (filter keep us)).
Proof.
  induction us as [|u us IH]; cbn [filter map]; intros H; [constructor|].
  inversion H as [|? ? Hn Hd]; subst.
  destruct (keep u); cbn [map]; [|now apply IH].
  constructor; [|now apply IH].
  intros Hin. apply Hn. apply in_map_iff in Hin. destruct Hin as [x [E Hx]].
  rewrite <- E. apply in_map. apply filter_In in Hx. tauto.
Qed.

Lemma NoDup_map_inj {A B} (f : A -> B) (l : list A) (a b : A) :
  NoDup (map f l) -> In a l -> In b l -> f a = f b -> a = b.
Proof.
  induction l as [|x l IH]; simpl; intros H Ha Hb E; [easy|].
  inversion H as [|? ? Hn Hd]; subst.
  destruct Ha as [-> | Ha], Hb as [-> | Hb]; auto.
  - exfalso. apply Hn. rewrite E. now apply in_map.
  - exfalso. apply Hn. rewrite <- E. now apply in_map.
Qed.

(** The three ways an insert into [users] fails, and the two ways an
    insert into [orders] fails when the reference is not checked. *)
Lemma INSERT_INTO_users_inl (p : UserParams) (fk : bool) (d : Database) e :
  INSERT_INTO_users p fk d = inl e ->
  e = OverflowError \/ e = OperationalError \/ e = IntegrityError UNIQUE_users_email.
Proof.
  destruct p as [[[nm a] em] ct]. unfold INSERT_INTO_users, next_rowid.
  destruct (negb (in_int64 a)); [intros [= <-]; now left|].
  destruct (2 ^ 63 - 1 <=? _); [intros [= <-]; right; now left|].
  destruct (existsb _ _); [intros [= <-]; right; now right | discriminate].
Qed.

Lemma INSERT_INTO_orders_inl (p : OrderParams) (fk : bool) (d : Database) e :
  INSERT_INTO_orders p fk d = inl e ->
  e = OverflowError \/ e = OperationalError \/ e = IntegrityError FOREIGN_KEY.
Proof.
  destruct p as [[k pn] q]. unfold INSERT_INTO_orders, next_rowid.
  destruct (negb (in_int64 k && in_int64 q)); [intros [= <-]; now left|].
  destruct (2 ^ 63 - 1 <=? _); [intros [= <-]; right; now left|].
  destruct (fk && _); [intros [= <-]; right; now right | discriminate].
Qed.

Lemma INSERT_INTO_users_not_overflow (p : UserParams) (fk : bool) (d : Database) :
  in_int64 (age_of p) = true -> INSERT_INTO_users p fk d <> inl OverflowError.
Proof.
  destruct p as [[[nm a] em] ct]. cbn [age_of]. intros Ha.
  unfold INSERT_INTO_users, next_rowid. rewrite Ha. cbn [negb].
  destruct (2 ^ 63 - 1 <=? _); [discriminate|].
  destruct (existsb _ _); discriminate.
Qed.

Lemma last_rowid_le (ids : list Z) (seq b : Z) :
  seq <= b -> (ids <> [] \/ 0 <= b) -> (forall i, In i ids -> i <= b) ->
  last_rowid ids seq <= b.
Proof.
  intros Hs Hb Hi. unfold last_rowid. apply Z.max_lub; [exact Hs|].
  destruct ids as [|j ids]; [destruct Hb; [congruence | assumption]|].
  assert (G : forall l a, a <= b -> (forall i, In i l -> i <= b) ->
                fold_right Z.max a l <= b).
  { induction l as [|x l IH]; intros a Ha Hl; cbn [fold_right]; [exact Ha|].
    apply Z.max_lub; [apply Hl; now left|].
    apply IH; [exact Ha|]. intros i Hin. apply Hl. now right. }
  apply G; [apply Hi; now left|]. intros i Hin. apply Hi. now right.
Qed.

(** Once the row of the next rowid is in, that rowid is the last one. *)
Lemma last_rowid_snoc (ids : list Z) (seq : Z) :
  last_rowid (ids ++ [last_rowid ids seq + 1]) (last_rowid ids seq + 1)
  = last_rowid ids seq + 1.
Proof.
  apply Z.le_antisymm;
    [|exact (proj1 (last_rowid_ge (ids ++ [last_rowid ids seq + 1])
                      (last_rowid ids seq + 1)))].
  apply last_rowid_le.
  - lia.
  - left. now destruct ids.
  - intros i Hi. apply in_app_iff in Hi. destruct Hi as [Hi | [<- | []]]; [|lia].
    apply (proj2 (last_rowid_ge ids seq)) in Hi. lia.
Qed.

(** An insert into [users] whose age fits, on a table with a rowid left,
    is decided by the email alone. *)
Lemma INSERT_INTO_users_room (p : UserParams) (fk : bool) (d : Database) :
  in_int64 (age_of p) = true ->
  last_rowid (map id (users d)) (users_seq d) < 2 ^ 63 - 1 ->
  INSERT_INTO_users p fk d
  = if existsb (fun u => (email u =? email_of p)%string) (users d)
    then inl (IntegrityError UNIQUE_users_email)
    else inr (1, set_users d
                   (users d ++ [user_row (last_rowid (map id (users d)) (users_seq d) + 1) p])
                   (last_rowid (map id (users d)) (users_seq d) + 1)).
Proof.
  destruct p as [[[nm a] e] ct]. cbn [age_of email_of user_row]. intros Ha Hr.
  unfold INSERT_INTO_users. rewrite Ha. cbn [negb].
  rewrite (proj2 (next_rowid_inr _ _ _) (conj eq_refl Hr)). reflexivity.
Qed.

Lemma INSERT_INTO_orders_room (p : OrderParams) (fk : bool) (d : Database) :
  in_int64 (fst (fst p)) = true -> in_int64 (snd p) = true ->
  last_rowid (map order_id (orders d)) (orders_seq d) < 2 ^ 63 - 1 ->
  INSERT_INTO_orders p fk d
  = if fk && negb (user_exists (fst (fst p)) (users d))
    then inl (IntegrityError FOREIGN_KEY)
    else inr (1, set_orders d
                   (orders d
                    ++ [order_row (last_rowid (map order_id (orders d)) (orders_seq d) + 1) p])
                   (last_rowid (map order_id (orders d)) (orders_seq d) + 1)).
Proof.
  destruct p as [[k pn] q]. cbn [fst snd order_row]. intros Hk Hq Hr.
  unfold INSERT_INTO_orders. rewrite Hk, Hq. cbn [andb negb].
  rewrite (proj2 (next_rowid_inr _ _ _) (conj eq_refl Hr)). reflexivity.
Qed.

Lemma email_user_row i p : email (user_row i p) = email_of p.
Proof. now destruct p as [[[nm a] e] ct]. Qed.

Lemma id_user_row i p : id (user_row i p) = i.
Proof. now destruct p as [[[nm a] e] ct]. Qed.

Lemma order_id_order_row i p : order_id (order_row i p) = i.
Proof. now destruct p as [[k pn] q]. Qed.

Lemma INSERT_INTO_users_keyed p fk d n d' :
  keyed d -> INSERT_INTO_users p fk d = inr (n, d') -> keyed d'.
Proof.
  intros [Hu Ho] E. apply INSERT_INTO_users_inr in E.
  destruct E as [i [Ei [_ [_ ->]]]]. split; simpl; [|assumption].
  rewrite map_app. replace (map id [user_row i p]) with [i]
    by now destruct p as [[[nm a] e] ct].
  apply NoDup_snoc; [assumption|]. now apply (next_rowid_fresh _ _ _ Ei).
Qed.

Lemma INSERT_INTO_orders_keyed p fk d n d' :
  keyed d -> INSERT_INTO_orders p fk d = inr (n, d') -> keyed d'.
Proof.
  intros [Hu Ho] E. apply INSERT_INTO_orders_inr in E.
  destruct E as [i [Ei [_ ->]]]. split; simpl; [assumption|].
  rewrite map_app. replace (map order_id [order_row i p]) with [i]
    by now destruct p as [[k pn] q].
  apply NoDup_snoc; [assumption|]. now apply (next_rowid_fresh _ _ _ Ei).
Qed.

Lemma DELETE_FROM_users_keyed key fk d n d' :
  keyed d -> DELETE_FROM_users key fk d = inr (n, d') -> keyed d'.
Proof.
  unfold DELETE_FROM_users. destruct (fk && _); [discriminate|].
  intros [Hu Ho] E. injection E as _ <-. split; simpl; [|assumption].
  now apply filter_keeps_ids_distinct.
Qed.

(** ** The update and its trigger *)

Lemma set_age_idem (v : Z) (u : User) : set_age v (set_age v u) = set_age v u.
Proof. reflexivity. Qed.

Lemma write_row_ids (r : Z) (new : User) (us : list User) :
  id new = r -> map id (write_row r new us) = map id us.
Proof.
  intros E. induction us as [|u us IH]; simpl; [reflexivity|].
  destruct (id u =? r) eqn:Hr; simpl.
  - apply Z.eqb_eq in Hr. congruence.
  - now rewrite IH.
Qed.

Lemma find_id_some (r : Z) (us : list User) (old : User) :
  find (fun u => id u =? r) us = Some old -> id old = r /\ In old us.
Proof.
  intros H. apply find_some in H. destruct H as [H1 H2].
  apply Z.eqb_eq in H2. now split.
Qed.

(** Rows of another rowid are not touched by the body of the trigger. *)
Lemma trigger_body_others (old new : User) (us : list User) :
  (forall u, In u us -> id u <> id old) -> trigger_body old new us = us.
Proof.
  unfold trigger_body. induction us as [|u us IH]; simpl; intros H; [reflexivity|].
  rewrite IH by (intros; apply H; now right).
  destruct (id u =? id old) eqn:E; [|reflexivity].
  apply Z.eqb_eq in E. exfalso. apply (H u); [now left | assumption].
Qed.

(** After the row of [old] has been rewritten to [new], the body of the
    trigger assigns to that row the age it already has. *)
Lemma trigger_body_after_write (old new : User) (us : list User) :
  NoDup (map id us) -> id new = id old -> 
  trigger_body old new (write_row (id old) new us) = write_row (id old) new us.
Proof.
  intros Hnd Hid. induction us as [|u us IH]; simpl; [reflexivity|].
  inversion Hnd as [|? ? Hn Hd]; subst.
  destruct (id u =? id old) eqn:E.
  - apply Z.eqb_eq in E.
    change (trigger_body old new (new :: us))
      with ((if id new =? id old then set_age (age new) new else new)
              :: trigger_body old new us).
    rewrite Hid, Z.eqb_refl.
    rewrite trigger_body_others.
    + now destruct new.
    + intros x Hx Ex. apply Hn. rewrite E, <- Ex. now apply in_map.
  - change (trigger_body old new (u :: write_row (id old) new us))
      with ((if id u =? id old then set_age (age new) u else u)
              :: trigger_body old new (write_row (id old) new us)).
    rewrite E, IH by assumption. reflexivity.
Qed.

Lemma update_row_trigger (v : Z) (us : list User) (r : Z) :
  NoDup (map id us) -> update_row true v us r = update_row false v us r.
Proof.
  intros Hnd. unfold update_row.
  destruct (find _ us) as [old|] eqn:F; [|reflexivity].
  apply find_id_some in F. destruct F as [<- _].
  now apply trigger_body_after_write.
Qed.

Lemma update_row_ids (trig : bool) (v : Z) (us : list User) (r : Z) :
  NoDup (map id us) -> map id (update_row trig v us r) = map id us.
Proof.
  intros Hnd. destruct trig; [rewrite update_row_trigger by assumption|];
    unfold update_row; (destruct (find _ us) as [old|] eqn:F; [|reflexivity]);
    apply find_id_some in F; destruct F as [F _];
    now apply write_row_ids.
Qed.

Lemma fold_update_row_trigger (v : Z) (rowids : list Z) (us : list User) :
  NoDup (map id us) ->
  fold_left (update_row true v) rowids us = fold_left (update_row false v) rowids us.
Proof.
  revert us. induction rowids as [|r rs IH]; simpl; intros us Hnd; [reflexivity|].
  rewrite update_row_trigger by assumption.
  apply IH. now rewrite update_row_ids.
Qed.

Lemma fold_update_row_ids (trig : bool) (v : Z) (rowids : list Z) (us : list User) :
  NoDup (map id us) ->
  map id (fold_left (update_row trig v) rowids us) = map id us.
Proof.
  revert us. induction rowids as [|r rs IH]; simpl; intros us Hnd; [reflexivity|].
  rewrite IH by now rewrite update_row_ids.
  now apply update_row_ids.
Qed.

Lemma UPDATE_users_keyed v key fk d n d' :
  keyed d -> UPDATE_users_SET_age v key fk d = inr (n, d') -> keyed d'.
Proof.
  unfold UPDATE_users_SET_age. intros [Hu Ho] E. injection E as _ <-.
  split; simpl; [|assumption].
  now rewrite fold_update_row_ids.
Qed.

Lemma UPDATE_trigger (v : Z) (key : string) (fk : bool) (d : Database) :
  NoDup (map id (users d)) ->
  exists n us,
    UPDATE_users_SET_age v key fk (without_trigger d)
    = inr (n, set_users (without_trigger d) us (users_seq d)) /\
    UPDATE_users_SET_age v key fk (set_trigger d)
    = inr (n, set_users (set_trigger d) us (users_seq d)).
Proof.
  intros Hnd. unfold UPDATE_users_SET_age. simpl.
  do 2 eexists. split; [reflexivity|].
  now rewrite fold_update_row_trigger.
Qed.

(** C9.  Take any connection whose users table has no two rows of one id
    (id is the primary key), any new age and any name.  The update run
    with the trigger [update_user_age] in the schema and the same update
    run without it return the same outcome and the same row count, and
    leave connections that differ in nothing but the presence of the
    trigger: the same rows in [users] and [orders], the same counters,
    pending and in the file. *)
Theorem trigger_is_noop (c : Connection) (v : Z) (key : string) :
  NoDup (map id (users (db c))) ->
  let installed := set_db c (set_trigger (db c)) in
  let absent := set_db c (without_trigger (db c)) in
  fst (update_user v key installed) = fst (update_user v key absent) /\
  without_trigger (db (snd (update_user v key installed)))
  = db (snd (update_user v key absent)) /\
  users (db (snd (update_user v key installed)))
  = users (db (snd (update_user v key absent))).
Proof.
  intros Hnd installed absent.
  destruct (UPDATE_trigger v key (foreign_keys c) (db c) Hnd) as [n [us [E1 E2]]].
  subst installed absent.
  destruct c as [h cc f d j]. cbn [db foreign_keys] in E1, E2.
  unfold update_user, execute_dml, bind, check_cursor, begin_implicit, step,
    commit, check_connection, ret, set_db, set_journal.
  destruct cc; [repeat split|].
  destruct h; [|repeat split].
  destruct j; cbn -[UPDATE_users_SET_age without_trigger set_trigger set_users];
    rewrite E1, E2; repeat split.
Qed.

Lemma trigger_is_noop_witness :
  let installed := set_db seeded (set_trigger (db seeded)) in
  let absent := set_db seeded (without_trigger (db seeded)) in
  fst (update_user 31 "Alice" installed) = fst (update_user 31 "Alice" absent) /\
  without_trigger (db (snd (update_user 31 "Alice" installed)))
  = db (snd (update_user 31 "Alice" absent)) /\
  users (db (snd (update_user 31 "Alice" installed)))
  = users (db (snd (update_user 31 "Alice" absent))).
Proof.
  apply (trigger_is_noop seeded 31 "Alice").
  simpl. repeat constructor; simpl; intuition discriminate.
Defined.

(** ** The bulk insert and the UNIQUE constraint *)

Lemma email_present (e : string) (us : list User) :
  existsb (fun u => (email u =? e)%string) us = true <-> In e (map email us).
Proof.
  rewrite existsb_exists, in_map_iff. split.
  - intros [u [H E]]. apply String.eqb_eq in E. now exists u.
  - intros [u [E H]]. exists u. split; [assumption|]. now apply String.eqb_eq.
Qed.

Lemma duplicate_email_tail present p batch :
  ~ In (email_of p) present ->
  duplicate_email present (p :: batch) ->
  duplicate_email (present ++ [email_of p]) batch.
Proof.
  intros Hn [pre [q [post [E H]]]].
  destruct pre as [|p' pre]; simpl in E; injection E as -> ->.
  - simpl in H. rewrite app_nil_r in H. contradiction.
  - exists pre, q, post. split; [reflexivity|].
    simpl in H. now rewrite <- app_assoc.
Qed.

Lemma journal_begin_implicit (c : Connection) :
  journal (snd (begin_implicit c)) = Some (durable c).
Proof.
  unfold begin_implicit, durable. now destruct (journal c) eqn:E; simpl.
Qed.

(** The statements of a batch with a clash never all go through: they
    stop at a record, the offending one or an earlier one that the store
    cannot take; the transaction they run in is still the one that was
    open. *)
Lemma steps_users_clash (batch : list UserParams) (c : Connection) :
  duplicate_email (map email (users (db c))) batch ->
  exists e c',
    steps INSERT_INTO_users batch c = (inl e, c') /\
    journal c' = journal c /\
    (e = OverflowError \/ e = OperationalError
     \/ e = IntegrityError UNIQUE_users_email) /\
    (storable batch -> e <> OverflowError).
Proof.
  revert c. induction batch as [|p batch IH]; intros c Hd.
  - destruct Hd as [pre [q [post [E _]]]]. now destruct pre.
  - cbn [steps]. unfold bind at 1. unfold step at 1.
    destruct (INSERT_INTO_users p (foreign_keys c) (db c)) as [e|[n d']] eqn:E.
    + exists e, c. split; [reflexivity|]. split; [reflexivity|].
      split; [now apply INSERT_INTO_users_inl in E|].
      intros Hs ->. revert E. apply INSERT_INTO_users_not_overflow.
      apply Hs. now left.
    + apply INSERT_INTO_users_inr in E. destruct E as [i [_ [Hn [_ ->]]]].
      apply (duplicate_email_tail _ _ _ Hn) in Hd.
      set (c1 := set_db c _).
      destruct (IH c1) as [e [c' [E [J [K1 K2]]]]].
      { subst c1. cbn [set_db db set_users users]. rewrite map_app.
        cbn [map]. now rewrite email_user_row. }
      exists e, c'. unfold bind. rewrite E. split; [reflexivity|].
      split; [rewrite J; reflexivity|]. split; [exact K1|].
      intros Hs. apply K2. intros q Hq. apply Hs. now right.
Qed.

(** When the ages fit in 64 bits and the table has rowids left for the
    batch, the record they stop at is the offending one. *)
Lemma steps_users_duplicate (batch : list UserParams) (c : Connection) :
  storable batch ->
  room (last_rowid (map id (users (db c))) (users_seq (db c))) (List.length batch) ->
  duplicate_email (map email (users (db c))) batch ->
  exists c',
    steps INSERT_INTO_users batch c = (inl (IntegrityError UNIQUE_users_email), c') /\
    journal c' = journal c.
Proof.
  revert c. induction batch as [|p batch IH]; intros c Hs Hr Hd.
  - destruct Hd as [pre [q [post [E _]]]]. now destruct pre.
  - cbn [steps]. unfold bind at 1. unfold step at 1.
    unfold room in Hr. cbn [List.length] in Hr.
    rewrite INSERT_INTO_users_room by (try (apply Hs; now left); lia).
    destruct (existsb _ (users (db c))) eqn:X.
    + now exists c.
    + assert (Hn : ~ In (email_of p) (map email (users (db c)))).
      { rewrite <- email_present. congruence. }
      apply (duplicate_email_tail _ _ _ Hn) in Hd.
      set (c1 := set_db c _).
      destruct (IH c1) as [c' [E J]].
      * intros q Hq. apply Hs. now right.
      * subst c1. unfold room. cbn [set_db db set_users users users_seq].
        rewrite map_app. cbn [map]. rewrite id_user_row, last_rowid_snoc. lia.
      * subst c1. cbn [set_db db set_users users]. rewrite map_app.
        cbn [map]. now rewrite email_user_row.
      * exists c'. unfold bind. rewrite E. split; [reflexivity|].
        rewrite J. reflexivity.
Qed.



(** A batch whose first record carries an age that does not fit in 64
    bits stops there, before the clash of the second record is looked
    at. *)
Example bulk_insert_age_out_of_range :
  fst (seed_users [("Ann", 2 ^ 63, "ann@example.com", None);
                   ("Cy", 22, "ann@example.com", None)] (connect empty_db))
  = inl OverflowError.
Proof. reflexivity. Qed.

(** Until the process ends, the connection that ran the failed batch still
    sees the records that came before the offending one; they are pending,
    not committed. *)
Example bulk_insert_earlier_rows_pending :
  let c' := snd (seed_users clash (connect empty_db)) in
  map name (users (db c')) = ["Ann"; "Bea"] /\ users (durable c') = [].
Proof. split; reflexivity. Qed.

(** Without a clash the whole batch is committed: [users_data] into empty
    tables. *)
Example seed_users_commits :
  fst (seed_users users_data (connect empty_db)) = inr tt /\
  map name (users (durable seeded)) = ["Alice"; "Bob"; "Charlie"; "David"] /\
  map id (users (durable seeded)) = [1; 2; 3; 4].
Proof. repeat split. Qed.

(** ** Deleting a user and the orders *)

Lemma DELETE_FROM_users_orders key fk d n d' :
  DELETE_FROM_users key fk d = inr (n, d') ->
  orders d' = orders d /\
  users d' = filter (fun u => negb (name u =? key)%string) (users d).
Proof.
  unfold DELETE_FROM_users. destruct (fk && _); [discriminate|].
  intros E. injection E as _ <-. split; reflexivity.
Qed.

Lemma delete_user_orders (c : Connection) (key : string) :
  orders (db (snd (delete_user key c))) = orders (db c).
Proof.
  destruct c as [h cc f d j].
  unfold delete_user, execute_dml, bind, check_cursor, begin_implicit, step,
    commit, check_connection, ret, set_db, set_journal.
  destruct cc; [reflexivity|].
  destruct h; [|reflexivity].
  destruct j; cbn -[DELETE_FROM_users];
    (destruct (DELETE_FROM_users key f d) as [e|[n d']] eqn:E; [reflexivity|]);
    apply DELETE_FROM_users_orders in E; now destruct E.
Qed.

(** Without enforcement the delete always goes through and is committed. *)
Lemma delete_user_unenforced (c : Connection) (key : string) :
  usable c -> foreign_keys c = false ->
  exists n c',
    delete_user key c = (inr n, c') /\
    journal c' = None /\
    users (db c') = filter (fun u => negb (name u =? key)%string) (users (db c)).
Proof.
  destruct c as [h cc f d j]. intros [Hh Hc] Hf. simpl in Hh, Hc, Hf. subst.
  unfold delete_user, execute_dml, bind, check_cursor, begin_implicit, step,
    commit, check_connection, ret, set_db, set_journal.
  destruct j; cbn; do 2 eexists; repeat split.
Qed.

(** C10.  Whatever the connection and the key, [delete_user] leaves the
    orders table as it was, row for row.  On the connection of the script,
    which does not enforce the foreign key, the delete of a user that an
    order points at succeeds; the order is still in the file afterwards and
    its [user_id] no longer matches any row of [users]. *)
Theorem delete_user_keeps_orders :
  (forall c key, orders (db (snd (delete_user key c))) = orders (db c)) /\
  (forall c key u o,
     usable c -> foreign_keys c = false ->
     NoDup (map id (users (db c))) ->
     In u (users (db c)) -> name u = key ->
     In o (orders (db c)) -> user_id o = Some (id u) ->
     exists n c',
       delete_user key c = (inr n, c') /\
       In o (orders (durable c')) /\
       user_of (users (db c)) o = Some u /\
       user_of (users (durable c')) o = None).
Proof.
  split; [apply delete_user_orders|].
  intros c key u o Hu Hf Hnd Hin Hname Ho Hid.
  destruct (delete_user_unenforced c key Hu Hf) as [n [c' [E [J U]]]].
  exists n, c'. split; [assumption|].
  assert (D : durable c' = db c') by (unfold durable; now rewrite J).
  rewrite D. repeat split.
  - pose proof (delete_user_orders c key) as O. rewrite E in O. simpl in O.
    now rewrite O.
  - unfold user_of. rewrite Hid.
    destruct (find _ (users (db c))) as [u'|] eqn:F.
    + apply find_id_some in F. destruct F as [F1 F2].
      f_equal. now apply (NoDup_map_inj id (users (db c))).
    + apply (find_none _ _ F) in Hin. now rewrite Z.eqb_refl in Hin.
  - unfold user_of. rewrite Hid, U.
    destruct (find _ _) as [u'|] eqn:F; [|reflexivity].
    apply find_id_some in F. destruct F as [F1 F2].
    apply filter_In in F2. destruct F2 as [F2 F3].
    assert (u' = u) by now apply (NoDup_map_inj id (users (db c))).
    subst u'. rewrite Hname, String.eqb_refl in F3. discriminate.
Qed.

Lemma delete_user_keeps_orders_witness :
  exists n c',
    delete_user "Alice" with_orders = (inr n, c') /\
    In (mkOrder 2 (Some 1) "Mouse" 2) (orders (durable c')) /\
    user_of (users (db with_orders)) (mkOrder 2 (Some 1) "Mouse" 2)
    = Some (mkUser 1 "Alice" 30 "alice@example.com" (Some "New York")) /\
    user_of (users (durable c')) (mkOrder 2 (Some 1) "Mouse" 2) = None.
Proof.
  apply (proj2 delete_user_keeps_orders with_orders "Alice"
           (mkUser 1 "Alice" 30 "alice@example.com" (Some "New York"))
           (mkOrder 2 (Some 1) "Mouse" 2)).
  - split; reflexivity.
  - reflexivity.
  - vm_compute. repeat constructor; simpl; intuition discriminate.
  - vm_compute. now left.
  - reflexivity.
  - vm_compute. right. now left.
  - reflexivity.
Defined.

(** With the foreign key enforced the same delete is refused, and the
    tables stay as they were. *)
Example delete_refused_when_enforced :
  let c := mkConnection Open false true (db with_orders) None in
  fst (delete_user "Alice" c) = inl (IntegrityError FOREIGN_KEY) /\
  db (snd (delete_user "Alice" c)) = db c.
Proof. split; vm_compute; reflexivity. Qed.

(** ** The operations of the access layer *)

Lemma preserves_ret {A} P (a : A) : preserves P (ret a).
Proof. intros c H. exact H. Qed.

Lemma preserves_bind {A B} P (m : M A) (k : A -> M B) :
  preserves P m -> (forall a, preserves P (k a)) -> preserves P (bind m k).
Proof.
  intros Hm Hk c H. unfold bind. specialize (Hm c H).
  destruct (m c) as [[e|a] c1]; simpl in *; [assumption|].
  now apply Hk.
Qed.

Lemma preserves_try_except {A} P (m : M A) (h : Error -> M A) :
  preserves P m -> (forall e, preserves P (h e)) -> preserves P (try_except m h).
Proof.
  intros Hm Hh c H. unfold try_except. specialize (Hm c H).
  destruct (m c) as [[e|a] c1]; simpl in *; [|assumption].
  now apply Hh.
Qed.

Lemma preserves_check_cursor P : preserves P check_cursor.
Proof.
  intros c H. unfold check_cursor.
  destruct (cursor_closed c); [assumption|]. now destruct (handle c).
Qed.

Lemma preserves_check_connection P : preserves P check_connection.
Proof.
  intros c H. unfold check_connection. now destruct (handle c).
Qed.

Lemma preserves_execute_query {A} P (q : Database -> Error + A) :
  preserves P (execute_query q).
Proof.
  unfold execute_query. apply preserves_bind; [apply preserves_check_cursor|].
  intros _ c H. now destruct (q (db c)).
Qed.

Lemma preserves_steps {P0} P (stmt : P0 -> bool -> Database -> Error + (Z * Database))
    (ps : list P0) :
  (forall p, preserves P (step (stmt p))) -> preserves P (steps stmt ps).
Proof.
  intros Hs. induction ps as [|p ps IH]; cbn [steps].
  - apply preserves_ret.
  - apply preserves_bind; [apply Hs|]. intros n.
    apply preserves_bind; [apply IH|]. intros m. apply preserves_ret.
Qed.

(** ** The life of the handle *)

Lemma handle_step {A} h (stmt : bool -> Database -> Error + (A * Database)) :
  preserves (fun c => handle c = h) (step stmt).
Proof.
  intros c H. unfold step.
  now destruct (stmt (foreign_keys c) (db c)) as [e|[a d]].
Qed.

Lemma handle_begin_implicit h : preserves (fun c => handle c = h) begin_implicit.
Proof. intros c H. unfold begin_implicit. now destruct (journal c). Qed.

Lemma handle_execute_dml h stmt : preserves (fun c => handle c = h) (execute_dml stmt).
Proof.
  unfold execute_dml.
  apply preserves_bind; [apply preserves_check_cursor|]. intros _.
  apply preserves_bind; [apply handle_begin_implicit|]. intros _.
  apply handle_step.
Qed.

Lemma handle_executemany {P} h (stmt : P -> bool -> Database -> Error + (Z * Database)) ps :
  preserves (fun c => handle c = h) (executemany stmt ps).
Proof.
  unfold executemany.
  apply preserves_bind; [apply preserves_check_cursor|]. intros _.
  apply preserves_bind; [apply handle_begin_implicit|]. intros _.
  apply preserves_steps. intros p. apply handle_step.
Qed.

Lemma handle_execute_ddl h f : preserves (fun c => handle c = h) (execute_ddl f).
Proof.
  unfold execute_ddl.
  apply preserves_bind; [apply preserves_check_cursor|]. now intros _ c H.
Qed.

Lemma handle_execute_BEGIN h : preserves (fun c => handle c = h) execute_BEGIN.
Proof.
  unfold execute_BEGIN.
  apply preserves_bind; [apply preserves_check_connection|].
  intros _ c H. now destruct (journal c).
Qed.

Lemma handle_commit h : preserves (fun c => handle c = h) commit.
Proof.
  unfold commit.
  apply preserves_bind; [apply preserves_check_connection|]. now intros _ c H.
Qed.

Lemma handle_rollback h : preserves (fun c => handle c = h) rollback.
Proof.
  unfold rollback.
  apply preserves_bind; [apply preserves_check_connection|]. now intros _ c H.
Qed.

Lemma handle_transaction h u o : preserves (fun c => handle c = h) (transaction u o).
Proof.
  unfold transaction. apply preserves_try_except.
  - apply preserves_bind; [apply handle_execute_BEGIN|]. intros _.
    apply preserves_bind; [apply handle_execute_dml|]. intros _.
    apply preserves_bind; [apply handle_execute_dml|]. intros _.
    apply preserves_bind; [apply handle_commit|]. intros _.
    apply preserves_ret.
  - intros e. apply preserves_bind; [apply handle_rollback|]. intros _.
    apply preserves_ret.
Qed.

(** No operation of the layer opens or closes the handle. *)
Lemma handle_call h (op : Call) : preserves (fun c => handle c = h) (call op).
Proof.
  destruct op; cbn [call]; unfold forget, seed_users, seed_orders, update_user,
    delete_user;
    repeat (first
      [ apply preserves_ret
      | apply preserves_execute_query
      | apply handle_execute_ddl
      | apply handle_execute_dml
      | apply handle_executemany
      | apply handle_execute_BEGIN
      | apply handle_commit
      | apply handle_rollback
      | apply handle_transaction
      | apply preserves_bind; [|intros ?] ]).
Qed.

Lemma refused_bind {A B} (m : M A) (k : A -> M B) :
  refused m -> refused (bind m k).
Proof. intros Hm c H. unfold bind. now rewrite (Hm c H). Qed.

Lemma refused_try_except {A} (m : M A) (h : Error -> M A) :
  refused m -> (forall e, refused (h e)) -> refused (try_except m h).
Proof. intros Hm Hh c H. unfold try_except. rewrite (Hm c H). now apply Hh. Qed.

Lemma refused_check_cursor : refused check_cursor.
Proof. exact check_cursor_closed. Qed.

Lemma refused_check_connection : refused check_connection.
Proof. exact check_connection_closed. Qed.

Lemma refused_call (op : Call) : refused (call op).
Proof.
  destruct op; cbn [call];
    unfold forget, seed_users, seed_orders, update_user, delete_user, transaction,
      executemany, execute_dml, execute_query, execute_ddl, execute_BEGIN,
      commit, rollback;
    repeat (first
      [ apply refused_check_cursor
      | apply refused_check_connection
      | apply refused_try_except; [|intros ?]
      | apply refused_bind ]).
Qed.

(** C8.  The handle starts open when the script connects; no operation of
    the layer changes its state; [close] (lines 257-258), called once on an
    open handle with an open cursor, returns without an exception and
    leaves the handle closed with nothing pending; on a closed handle every
    operation - queries, inserts, update, delete, aggregates, grouping,
    the transaction, commit and rollback - raises [ProgrammingError] (the
    spec's UseAfterClose) and leaves the connection as it is, so the closed
    state is final; closing the connection again leaves it closed. *)
Theorem handle_lifecycle :
  (forall file, state_of (Unopened file) = None /\
                state_of (Live (connect file)) = Some Open) /\
  (forall c op, handle (snd (call op c)) = handle c) /\
  (forall c, usable c ->
     exists c', close c = (inr tt, c') /\ handle c' = Closed /\
                journal c' = None /\ db c' = durable c) /\
  (forall c op, handle c = Closed -> call op c = (inl ProgrammingError, c)) /\
  (forall c ops, handle c = Closed -> run_calls ops c = c) /\
  (forall c, handle c = Closed ->
     handle (snd (connection_close c)) = Closed /\
     handle (snd (close c)) = Closed).
Proof.
  split; [|split; [|split; [|split; [|split]]]].
  - intros file. split; reflexivity.
  - intros c op. now apply (handle_call (handle c) op c).
  - intros [h cc f d j] [Hh Hc]. cbn in Hh, Hc. subst h cc.
    eexists. repeat split.
  - intros c op H. now apply refused_call.
  - intros c ops H. induction ops as [|op ops IH]; [reflexivity|].
    cbn [run_calls fold_left]. rewrite (refused_call op c H). exact IH.
  - intros c H. split; [reflexivity|].
    assert (R : refused close).
    { unfold close, cursor_close. apply refused_bind, refused_bind.
      apply refused_check_connection. }
    rewrite (R c H). exact H.
Qed.

Lemma handle_lifecycle_witness :
  (exists c', close seeded = (inr tt, c') /\ handle c' = Closed /\
              journal c' = None /\ db c' = durable seeded) /\
  call (Update_user 31 "Alice") (snd (close seeded))
  = (inl ProgrammingError, snd (close seeded)) /\
  run_calls [Query_older_than_30; Seed_users users_data; Delete_user "Bob";
             Aggregate_AVG; Commit] (snd (close seeded))
  = snd (close seeded).
Proof.
  destruct handle_lifecycle as [_ [_ [H3 [H4 [H5 _]]]]].
  split; [|split].
  - apply (H3 seeded). split; reflexivity.
  - apply (H4 (snd (close seeded))). reflexivity.
  - apply (H5 (snd (close seeded))). reflexivity.
Defined.

(** ** Properties of the database that every operation keeps *)

Section DatabaseInvariant.

Variable I : Database -> Prop.

Hypothesis I_insert_user : forall p, kept_by I (INSERT_INTO_users p).
Hypothesis I_insert_order : forall p, kept_by I (INSERT_INTO_orders p).
Hypothesis I_update : forall v key, kept_by I (UPDATE_users_SET_age v key).
Hypothesis I_delete : forall key, kept_by I (DELETE_FROM_users key).
Hypothesis I_view : forall d, I d -> I (set_view d).
Hypothesis I_trigger : forall d, I d -> I (set_trigger d).

Lemma holds_step {A} (stmt : bool -> Database -> Error + (A * Database)) :
  kept_by I stmt -> preserves (holds I) (step stmt).
Proof.
  intros Hs c [H1 H2]. unfold step.
  destruct (stmt (foreign_keys c) (db c)) as [e|[a d]] eqn:E; [now split|].
  split; [now apply (Hs _ _ _ _ H1 E)|].
  unfold durable in *. cbn. destruct (journal c); [assumption|].
  now apply (Hs _ _ _ _ H1 E).
Qed.

Lemma holds_begin_implicit : preserves (holds I) begin_implicit.
Proof.
  intros c [H1 H2]. unfold begin_implicit, holds, durable in *.
  destruct (journal c) eqn:J; cbn; [now rewrite J|now split].
Qed.

Lemma holds_execute_dml stmt : kept_by I stmt -> preserves (holds I) (execute_dml stmt).
Proof.
  intros Hs. unfold execute_dml.
  apply preserves_bind; [apply preserves_check_cursor|]. intros _.
  apply preserves_bind; [apply holds_begin_implicit|]. intros _.
  now apply holds_step.
Qed.

Lemma holds_executemany {P} (stmt : P -> bool -> Database -> Error + (Z * Database)) ps :
  (forall p, kept_by I (stmt p)) -> preserves (holds I) (executemany stmt ps).
Proof.
  intros Hs. unfold executemany.
  apply preserves_bind; [apply preserves_check_cursor|]. intros _.
  apply preserves_bind; [apply holds_begin_implicit|]. intros _.
  apply preserves_steps. intros p. now apply holds_step.
Qed.

Lemma holds_execute_ddl f : (forall d, I d -> I (f d)) -> preserves (holds I) (execute_ddl f).
Proof.
  intros Hf. unfold execute_ddl.
  apply preserves_bind; [apply preserves_check_cursor|].
  intros _ c [H1 H2]. unfold holds, durable in *. cbn.
  destruct (journal c); split; auto.
Qed.

Lemma holds_execute_BEGIN : preserves (holds I) execute_BEGIN.
Proof.
  unfold execute_BEGIN.
  apply preserves_bind; [apply preserves_check_connection|].
  intros _ c [H1 H2]. unfold holds, durable in *.
  destruct (journal c) eqn:J; cbn; [now rewrite J|now split].
Qed.

Lemma holds_commit : preserves (holds I) commit.
Proof.
  unfold commit.
  apply preserves_bind; [apply preserves_check_connection|].
  intros _ c [H1 H2]. now split.
Qed.

Lemma holds_rollback : preserves (holds I) rollback.
Proof.
  unfold rollback.
  apply preserves_bind; [apply preserves_check_connection|].
  intros _ c [H1 H2]. now split.
Qed.

Lemma holds_transaction u o : preserves (holds I) (transaction u o).
Proof.
  unfold transaction. apply preserves_try_except.
  - apply preserves_bind; [apply holds_execute_BEGIN|]. intros _.
    apply preserves_bind; [apply holds_execute_dml, I_insert_user|]. intros _.
    apply preserves_bind; [apply holds_execute_dml, I_insert_order|]. intros _.
    apply preserves_bind; [apply holds_commit|]. intros _.
    apply preserves_ret.
  - intros e. apply preserves_bind; [apply holds_rollback|]. intros _.
    apply preserves_ret.
Qed.

Lemma holds_call (op : Call) : preserves (holds I) (call op).
Proof.
  destruct op; cbn [call]; unfold forget, seed_users, seed_orders, update_user,
    delete_user;
    repeat (first
      [ apply preserves_ret
      | apply preserves_execute_query
      | apply holds_execute_ddl; solve [auto]
      | apply holds_execute_dml; solve [auto]
      | apply holds_executemany; solve [auto]
      | apply holds_execute_BEGIN
      | apply holds_commit
      | apply holds_rollback
      | apply holds_transaction
      | apply preserves_bind; [|intros ?] ]).
Qed.

Lemma holds_run_calls (ops : list Call) (c : Connection) :
  holds I c -> holds I (run_calls ops c).
Proof.
  revert c. induction ops as [|op ops IH]; intros c H; [exact H|].
  cbn [run_calls fold_left]. apply IH. now apply holds_call.
Qed.

Lemma holds_close : preserves (holds I) close.
Proof.
  unfold close, cursor_close.
  apply preserves_bind.
  - apply preserves_bind; [apply preserves_check_connection|].
    now intros _ c H.
  - intros _ c [H1 H2]. now split.
Qed.

End DatabaseInvariant.

(** ** The view and the join *)

Lemma has_view_kept_by_statements :
  (forall p, kept_by has_view (INSERT_INTO_users p)) /\
  (forall p, kept_by has_view (INSERT_INTO_orders p)) /\
  (forall v key, kept_by has_view (UPDATE_users_SET_age v key)) /\
  (forall key, kept_by has_view (DELETE_FROM_users key)).
Proof.
  unfold kept_by, has_view. repeat split.
  - intros p fk d n d' H E. apply INSERT_INTO_users_inr in E.
    destruct E as [i [_ [_ [_ ->]]]]. exact H.
  - intros p fk d n d' H E. apply INSERT_INTO_orders_inr in E.
    destruct E as [i [_ [_ ->]]]. exact H.
  - intros v key fk d n d' H. unfold UPDATE_users_SET_age.
    intros E. injection E as _ <-. exact H.
  - intros key fk d n d' H. unfold DELETE_FROM_users.
    destruct (fk && _); [discriminate|]. intros E. injection E as _ <-. exact H.
Qed.

Lemma has_view_call (op : Call) : preserves (holds has_view) (call op).
Proof.
  destruct has_view_kept_by_statements as [H1 [H2 [H3 H4]]].
  apply holds_call; auto; intros d H; exact H || reflexivity.
Qed.

Lemma read_view_is_join (c : Connection) :
  has_view (db c) ->
  execute_query SELECT_user_orders_view c = execute_query SELECT_join c.
Proof.
  intros H. unfold execute_query, bind.
  destruct (check_cursor c) as [[e|u] c1] eqn:E; [reflexivity|].
  assert (c1 = c) as ->.
  { unfold check_cursor in E. destruct (cursor_closed c); [discriminate|].
    destruct (handle c); now inversion E. }
  unfold SELECT_user_orders_view, SELECT_join. unfold has_view in H.
  now rewrite H.
Qed.

(** Each row of the join comes from an order and the user it points at. *)
Lemma inner_join_rows us os t :
  In t (inner_join us os) <->
  exists u o, In o os /\ user_of us o = Some u /\
              t = (name u, product_name o, quantity o).
Proof.
  unfold inner_join. rewrite in_flat_map. split.
  - intros [o [Ho Ht]]. destruct (user_of us o) as [u|] eqn:E; [|easy].
    destruct Ht as [<- | []]. now exists u, o.
  - intros [u [o [Ho [E ->]]]]. exists o. split; [assumption|].
    rewrite E. now left.
Qed.

Lemma user_of_matches us o u :
  user_of us o = Some u -> In u us /\ user_id o = Some (id u).
Proof.
  unfold user_of. destruct (user_id o) as [k|]; [|discriminate].
  intros F. apply find_id_some in F. destruct F as [<- F]. now split.
Qed.

Lemma find_filter_other (k r : Z) (us : list User) :
  k <> r ->
  find (fun u => id u =? k) (filter (fun x => negb (id x =? r)) us)
  = find (fun u => id u =? k) us.
Proof.
  intros Hk. induction us as [|u us IH]; simpl; [reflexivity|].
  destruct (id u =? r) eqn:Er; simpl.
  - apply Z.eqb_eq in Er.
    destruct (id u =? k) eqn:Ek; [apply Z.eqb_eq in Ek; congruence | exact IH].
  - destruct (id u =? k); [reflexivity | exact IH].
Qed.

(** A user at which no order points adds nothing to the join: without its
    row the join is the same sequence. *)
Lemma inner_join_without_user us os r :
  (forall o, In o os -> user_id o <> Some r) ->
  inner_join (filter (fun x => negb (id x =? r)) us) os = inner_join us os.
Proof.
  intros H. unfold inner_join.
  induction os as [|o os IH]; cbn [flat_map]; [reflexivity|].
  rewrite IH by (intros o' Ho'; apply H; now right). f_equal.
  unfold user_of. destruct (user_id o) as [k|] eqn:E; [|reflexivity].
  rewrite find_filter_other; [reflexivity|].
  intros ->. apply (H o); [now left | assumption].
Qed.

(** C7.  (1) On every connection whose schema has the view, reading the
    view and running the inner join directly give the same outcome: the
    same sequence of (user name, product name, quantity) triples, or the
    same exception.  (2) Once the view is created in autocommit, as at
    line 133, this stays so after any further calls on the connection: the
    view is evaluated on the tables as they are at the read.  (3) The rows
    read depend on the tables alone: with the tables replaced, the view
    yields the join of the new tables.  (4) Every triple comes from an
    order and the user whose id is the order's [user_id]; (5) a user at
    which no order points contributes nothing, the join is the same
    without its row. *)
Theorem view_is_the_join :
  (forall c, has_view (db c) ->
     execute_query SELECT_user_orders_view c = execute_query SELECT_join c) /\
  (forall c ops, usable c -> journal c = None ->
     let c' := run_calls ops (snd (call Create_view c)) in
     execute_query SELECT_user_orders_view c' = execute_query SELECT_join c') /\
  (forall c us os, usable c -> has_view (db c) ->
     let c' := set_db c (with_tables (db c) us os) in
     execute_query SELECT_user_orders_view c' = (inr (inner_join us os), c')) /\
  (forall us os t, In t (inner_join us os) ->
     exists u o, In u us /\ In o os /\ user_id o = Some (id u) /\
                 t = (name u, product_name o, quantity o)) /\
  (forall us os r, (forall o, In o os -> user_id o <> Some r) ->
     inner_join (filter (fun x => negb (id x =? r)) us) os = inner_join us os).
Proof.
  split; [|split; [|split; [|split]]].
  - exact read_view_is_join.
  - intros c ops Hu Hj c'. apply read_view_is_join.
    assert (H : holds has_view (snd (call Create_view c))).
    { destruct c as [h cc f d j]. destruct Hu as [Hh Hc].
      cbn in Hh, Hc, Hj. subst. split; reflexivity. }
    apply (holds_run_calls has_view) with (ops := ops) in H.
    + exact (proj1 H).
    + apply has_view_kept_by_statements.
    + apply has_view_kept_by_statements.
    + apply has_view_kept_by_statements.
    + apply has_view_kept_by_statements.
    + now intros d Hd.
    + now intros d Hd.
  - intros c us os Hu Hv c'.
    assert (Hu' : usable c') by (destruct Hu; now split).
    rewrite (execute_query_usable _ _ Hu').
    unfold SELECT_user_orders_view. subst c'. cbn [db set_db with_tables user_orders_view].
    unfold has_view in Hv. rewrite Hv. reflexivity.
  - intros us os t Ht. apply inner_join_rows in Ht.
    destruct Ht as [u [o [Ho [E ->]]]]. apply user_of_matches in E.
    destruct E as [E1 E2]. now exists u, o.
  - exact inner_join_without_user.
Qed.

Lemma view_is_the_join_witness :
  let c' := run_calls [Delete_user "Charlie"; Seed_orders [(4, "Desk", 1)]; Rollback]
              (snd (call Create_view with_orders)) in
  execute_query SELECT_user_orders_view c' = execute_query SELECT_join c'.
Proof.
  apply (proj1 (proj2 view_is_the_join) with_orders
           [Delete_user "Charlie"; Seed_orders [(4, "Desk", 1)]; Rollback]).
  - split; reflexivity.
  - reflexivity.
Defined.

(** The rows the view gives after those calls. *)
Example view_after_calls :
  let c' := run_calls [Delete_user "Charlie"; Seed_orders [(4, "Desk", 1)]; Rollback]
              (snd (call Create_view with_orders)) in
  fst (execute_query SELECT_user_orders_view c')
  = inr [("Alice", "Laptop", 1); ("Alice", "Mouse", 2);
         ("David", "Monitor", 2); ("David", "Desk", 1)].
Proof. reflexivity. Qed.

(** Without the view in the schema the read fails while the join
    answers. *)
Example view_missing :
  fst (execute_query SELECT_user_orders_view with_orders) = inl OperationalError /\
  fst (execute_query SELECT_join with_orders)
  = inr [("Alice", "Laptop", 1); ("Alice", "Mouse", 2);
         ("Charlie", "Keyboard", 1); ("David", "Monitor", 2)].
Proof. split; reflexivity. Qed.

(** ** The transaction block *)

(** C1, on the code.  The script on a file whose tables are empty: the
    connection does not enforce foreign keys, nothing stops the order for
    user 999, the block commits instead of rolling back, and both the new
    user and the new order are in the tables it lists afterwards and in
    the file it leaves; each table has one row more than before the
    block. *)
Theorem transaction_commits_on_fresh_file :
  exists p c us os,
    run empty_db = (inr p, c) /\
    foreign_keys (connect empty_db) = false /\
    after_transaction p = (Committed, us, os) /\
    List.length us = S (List.length (updated_users p)) /\
    List.length os = S (List.length (listed_orders p)) /\
    In (mkUser 5 "Eve" 28 "eve@newdomain.com" (Some "Miami")) us /\
    In (mkOrder 5 (Some 999) "Tablet" 1) os /\
    user_exists 999 us = false /\
    users (durable c) = us /\ orders (durable c) = os.
Proof.
  let r := eval vm_compute in (run empty_db) in
  match r with
  | (inr ?p, ?c) => exists p, c
  end.
  do 2 eexists.
  split; [vm_compute; reflexivity|].
  split; [reflexivity|].
  split; [reflexivity|].
  cbn. repeat split; tauto.
Qed.

(** What decides the block on a connection in autocommit, when the
    values bound fit in 64 bits and both tables have a rowid left: whether
    the new user's email is taken, and whether the store checks the
    reference of the order.  Without the check, a fresh email makes the
    block commit, with one row more in each table. *)
Lemma transaction_unenforced (c : Connection) (u : UserParams) (o : OrderParams) :
  usable c -> journal c = None -> foreign_keys c = false ->
  existsb (fun x => (email x =? email_of u)%string) (users (db c)) = false ->
  in_int64 (age_of u) = true ->
  in_int64 (fst (fst o)) = true -> in_int64 (snd o) = true ->
  room (last_rowid (map id (users (db c))) (users_seq (db c))) 1 ->
  room (last_rowid (map order_id (orders (db c))) (orders_seq (db c))) 1 ->
  exists c',
    transaction u o c = (inr Committed, c') /\
    journal c' = None /\
    List.length (users (db c')) = S (List.length (users (db c))) /\
    List.length (orders (db c')) = S (List.length (orders (db c))).
Proof.
  destruct c as [h cc f d j].
  intros [Hh Hc] Hj Hf He Ha Hk Hq Hu Ho. unfold room in Hu, Ho.
  cbn [handle cursor_closed journal foreign_keys db] in *. subst.
  unfold transaction, try_except, bind, execute_BEGIN, execute_dml, bind,
    check_connection, check_cursor, begin_implicit, step, commit, ret.
  cbn [handle cursor_closed journal foreign_keys db set_db set_journal fst snd].
  rewrite INSERT_INTO_users_room by (assumption || lia). rewrite He.
  cbn [handle cursor_closed journal foreign_keys db set_db set_journal fst snd].
  rewrite INSERT_INTO_orders_room
    by (assumption || (cbn [set_users orders orders_seq]; lia)).
  cbn [andb handle cursor_closed journal foreign_keys db set_db set_journal fst snd].
  eexists. split; [reflexivity|].
  cbn [journal db set_journal set_db set_users set_orders users orders].
  rewrite !length_app. cbn [List.length]. repeat split; lia.
Qed.

(** With the reference checked, an order for a user that does not exist
    makes the block roll back on a constraint, and the connection is
    exactly as before: neither the user nor the order is there.  The
    values bound fit in 64 bits, both tables have a rowid left, and the
    order does not point at the rowid the new user gets. *)
Lemma transaction_enforced (c : Connection) (u : UserParams) (o : OrderParams) :
  usable c -> journal c = None -> foreign_keys c = true ->
  user_exists (fst (fst o)) (users (db c)) = false ->
  fst (fst o) <> last_rowid (map id (users (db c))) (users_seq (db c)) + 1 ->
  in_int64 (age_of u) = true ->
  in_int64 (fst (fst o)) = true -> in_int64 (snd o) = true ->
  room (last_rowid (map id (users (db c))) (users_seq (db c))) 1 ->
  room (last_rowid (map order_id (orders (db c))) (orders_seq (db c))) 1 ->
  exists k, transaction u o c = (inr (RolledBack (IntegrityError k)), c).
Proof.
  destruct c as [h cc f d j].
  intros [Hh Hc] Hj Hf Hx Hn Ha Hk Hq Hu Ho. unfold room in Hu, Ho.
  cbn [handle cursor_closed journal foreign_keys db] in *. subst.
  unfold transaction, try_except, bind, execute_BEGIN, execute_dml, bind,
    check_connection, check_cursor, begin_implicit, step, commit, rollback, ret.
  cbn [handle cursor_closed journal foreign_keys db set_db set_journal fst snd].
  rewrite INSERT_INTO_users_room by (assumption || lia).
  destruct (existsb _ (users d)) eqn:He.
  - cbn [handle cursor_closed journal foreign_keys db set_db set_journal fst snd].
    now exists UNIQUE_users_email.
  - cbn [handle cursor_closed journal foreign_keys db set_db set_journal fst snd].
    rewrite INSERT_INTO_orders_room
      by (assumption || (cbn [set_users orders orders_seq]; lia)).
    cbn [set_users users]. unfold user_exists in *.
    rewrite existsb_app, Hx. cbn [existsb orb]. rewrite id_user_row.
    apply Z.eqb_neq in Hn. rewrite Z.eqb_sym in Hn. rewrite Hn.
    cbn [andb negb orb handle cursor_closed journal foreign_keys db set_db
         set_journal fst snd].
    now exists FOREIGN_KEY.
Qed.

(** The block of the script on the tables it has built, had the
    connection enforced foreign keys. *)
Example transaction_block_when_enforced :
  let c := mkConnection Open false true (db with_orders) None in
  transaction Eve Tablet c = (inr (RolledBack (IntegrityError FOREIGN_KEY)), c).
Proof. vm_compute. reflexivity. Qed.

(** ** Grouping by name *)

(** C5, on the code.  The script on [stale_file]: when it groups, the
    table holds four users, two of them called Alice with one order each.
    The grouped count has three pairs, not four, and gives Alice 2; the
    HAVING variant returns Alice although no user has more than one
    order. *)
Theorem group_by_name_merges_users :
  exists p c,
    run stale_file = (inr p, c) /\
    map (fun u => (id u, name u, order_count (listed_orders p) u)) (updated_users p)
    = [(3, "Alice", 1); (4, "Alice", 1); (6, "Charlie", 0); (7, "David", 0)] /\
    user_count p = 4 /\
    orders_per_user p = [("Alice", 2); ("Charlie", 0); ("David", 0)] /\
    more_than_1_order p = [("Alice", 2)] /\
    forallb (fun u => order_count (listed_orders p) u <=? 1) (updated_users p) = true.
Proof.
  let r := eval vm_compute in (run stale_file) in
  match r with
  | (inr ?p, ?c) => exists p, c
  end.
  split; [vm_compute; reflexivity|].
  split; [vm_compute; reflexivity|].
  split; [reflexivity|].
  split; [reflexivity|].
  split; [reflexivity|].
  vm_compute. reflexivity.
Qed.

(** *** When no two users share a name *)

Lemma left_join_user_rows us os : left_join us os = flat_map (user_rows os) us.
Proof. reflexivity. Qed.

Lemma COUNT_order_id_counted n rows :
  COUNT_order_id n rows = Z.of_nat (List.length (filter (counted n) rows)).
Proof. reflexivity. Qed.

Lemma counted_orders n u (l : list Order) :
  List.length (filter (counted n) (map (fun o => (u, Some o)) l))
  = if (name u =? n)%string then List.length l else 0%nat.
Proof.
  induction l as [|o l IH]; cbn [map filter].
  - now destruct (name u =? n)%string.
  - unfold counted at 1. cbn [fst snd]. rewrite andb_true_r.
    destruct (name u =? n)%string; cbn [List.length]; now rewrite IH.
Qed.

Lemma counted_user_rows n u os :
  List.length (filter (counted n) (user_rows os u))
  = if (name u =? n)%string then List.length (orders_of u os) else 0%nat.
Proof.
  unfold user_rows. destruct (orders_of u os) as [|o l] eqn:E.
  - cbn [filter]. unfold counted. cbn [fst snd]. rewrite andb_false_r.
    now destruct (name u =? n)%string.
  - apply counted_orders.
Qed.

Lemma counted_absent n us os :
  ~ In n (map name us) ->
  List.length (filter (counted n) (left_join us os)) = 0%nat.
Proof.
  rewrite left_join_user_rows.
  induction us as [|a us IH]; cbn [flat_map map]; intros H; [reflexivity|].
  rewrite filter_app, length_app, counted_user_rows, IH.
  - destruct (name a =? n)%string eqn:E; [|reflexivity].
    apply String.eqb_eq in E. exfalso. apply H. now left.
  - intros Hn. apply H. now right.
Qed.

Lemma counted_distinct u us os :
  NoDup (map name us) -> In u us ->
  List.length (filter (counted (name u)) (left_join us os))
  = List.length (orders_of u os).
Proof.
  rewrite left_join_user_rows.
  induction us as [|a us IH]; cbn [flat_map map]; intros Hnd Hin; [easy|].
  inversion Hnd as [|? ? Hn Hd]; subst.
  rewrite filter_app, length_app, counted_user_rows.
  destruct Hin as [-> | Hin].
  - rewrite String.eqb_refl.
    rewrite <- left_join_user_rows, counted_absent by assumption. lia.
  - rewrite IH by assumption.
    destruct (name a =? name u)%string eqn:E; [|reflexivity].
    apply String.eqb_eq in E. exfalso. apply Hn. rewrite E. now apply in_map.
Qed.

Lemma In_insert_name x n l : In x (insert_name n l) <-> x = n \/ In x l.
Proof.
  induction l as [|m l IH]; cbn [insert_name].
  - cbn. intuition.
  - destruct (String.compare n m) eqn:E.
    + apply String.compare_eq_iff in E. subst m. cbn. intuition.
    + cbn. intuition.
    + cbn [In]. rewrite IH. intuition.
Qed.

Lemma In_group_keys n rows :
  In n (group_keys rows) <-> In n (map (fun r => name (fst r)) rows).
Proof.
  unfold group_keys. induction rows as [|r rows IH]; cbn [map fold_right]; [easy|].
  rewrite In_insert_name, IH. cbn. intuition.
Qed.

Lemma names_left_join n us os :
  In n (map (fun r => name (fst r)) (left_join us os)) <-> In n (map name us).
Proof.
  rewrite left_join_user_rows.
  induction us as [|a us IH]; cbn [flat_map map]; [easy|].
  rewrite map_app, in_app_iff, IH. cbn [In].
  assert (X : In n (map (fun r => name (fst r)) (user_rows os a)) <-> name a = n).
  { unfold user_rows. destruct (orders_of a os) as [|o l].
    - cbn. intuition.
    - rewrite map_map. cbn [fst In map]. split; [|now left].
      intros [H | H]; [assumption|]. apply in_map_iff in H. now destruct H as [_ [H _]]. }
  rewrite X. reflexivity.
Qed.

Lemma insert_name_sorted n l :
  StronglySorted OrderedTypeEx.String_as_OT.lt l ->
  StronglySorted OrderedTypeEx.String_as_OT.lt (insert_name n l).
Proof.
  induction l as [|m l IH]; cbn [insert_name]; intros H.
  - repeat constructor.
  - inversion H as [|? ? Hs Hf]; subst.
    destruct (String.compare n m) eqn:E.
    + exact H.
    + apply OrderedTypeEx.String_as_OT.cmp_lt in E.
      constructor; [exact H|]. constructor; [exact E|].
      eapply Forall_impl; [|exact Hf].
      intros x Hx. now apply (OrderedTypeEx.String_as_OT.lt_trans n m x).
    + assert (E' : String.compare m n = Lt).
      { rewrite String.compare_antisym, E. reflexivity. }
      apply OrderedTypeEx.String_as_OT.cmp_lt in E'.
      constructor; [now apply IH|].
      apply Forall_forall. intros x Hx. apply In_insert_name in Hx.
      destruct Hx as [-> | Hx]; [exact E'|].
      rewrite Forall_forall in Hf. now apply Hf.
Qed.

Lemma group_keys_sorted rows :
  StronglySorted OrderedTypeEx.String_as_OT.lt (group_keys rows).
Proof.
  unfold group_keys. induction rows as [|r rows IH]; cbn [map fold_right].
  - constructor.
  - now apply insert_name_sorted.
Qed.

Lemma sorted_names_NoDup l :
  StronglySorted OrderedTypeEx.String_as_OT.lt l -> NoDup l.
Proof.
  induction 1 as [|a l Hs IH Hf]; constructor; [|exact IH].
  intros Hin. rewrite Forall_forall in Hf. specialize (Hf a Hin).
  apply OrderedTypeEx.String_as_OT.lt_not_eq in Hf. now apply Hf.
Qed.

Lemma group_order_counts_keys us os :
  map fst (group_order_counts us os) = group_keys (left_join us os).
Proof.
  unfold group_order_counts. rewrite map_map. cbn [fst]. apply map_id.
Qed.

(** When the names in [users] are pairwise distinct, the grouped count has
    exactly one pair per user, in the byte order of the names, and pairs
    each user with the number of its orders, 0 for a user that has none;
    the HAVING variant keeps exactly the users with more than one order. *)
Lemma group_order_counts_distinct_names (us : list User) (os : list Order) :
  NoDup (map name us) ->
  (forall u, In u us -> In (name u, order_count os u) (group_order_counts us os)) /\
  (forall n k, In (n, k) (group_order_counts us os) ->
     exists u, In u us /\ name u = n /\ k = order_count os u) /\
  NoDup (map fst (group_order_counts us os)) /\
  List.length (group_order_counts us os) = List.length us /\
  (forall n k,
     In (n, k) (filter (fun g => 1 <? snd g) (group_order_counts us os)) <->
     exists u, In u us /\ name u = n /\ k = order_count os u /\ 1 < k).
Proof.
  intros Hnd.
  assert (P1 : forall u, In u us ->
                 In (name u, order_count os u) (group_order_counts us os)).
  { intros u Hu. unfold group_order_counts. apply in_map_iff.
    exists (name u). split.
    - rewrite COUNT_order_id_counted, counted_distinct by assumption. reflexivity.
    - apply In_group_keys, names_left_join. now apply in_map. }
  assert (P2 : forall n k, In (n, k) (group_order_counts us os) ->
                 exists u, In u us /\ name u = n /\ k = order_count os u).
  { intros n k H. unfold group_order_counts in H. apply in_map_iff in H.
    destruct H as [m [E Hm]]. injection E as -> <-.
    apply In_group_keys, names_left_join, in_map_iff in Hm.
    destruct Hm as [u [<- Hu]]. exists u. repeat split; [assumption|].
    rewrite COUNT_order_id_counted, counted_distinct by assumption. reflexivity. }
  assert (P3 : NoDup (map fst (group_order_counts us os))).
  { rewrite group_order_counts_keys. apply sorted_names_NoDup, group_keys_sorted. }
  split; [exact P1|]. split; [exact P2|]. split; [exact P3|]. split.
  - rewrite <- (length_map fst), <- (length_map name us).
    apply Permutation_length, NoDup_Permutation; [exact P3 | exact Hnd |].
    intros n. rewrite group_order_counts_keys, In_group_keys. apply names_left_join.
  - intros n k. rewrite filter_In. cbn [snd]. rewrite Z.ltb_lt. split.
    + intros [H Hk]. destruct (P2 n k H) as [u [Hu [Hn Hc]]]. now exists u.
    + intros [u [Hu [<- [-> Hk]]]]. split; [now apply P1 | exact Hk].
Qed.

(** The tables of the script when it groups: names distinct, one pair per
    user. *)
Example orders_per_user_of_the_script :
  fst (execute_query SELECT_order_counts
         (snd (delete_user "Bob" with_orders)))
  = inr [("Alice", 2); ("Charlie", 1); ("David", 1)].
Proof. vm_compute. reflexivity. Qed.

(** ** Keys stay keys *)

Lemma keyed_call (op : Call) : preserves (holds keyed) (call op).
Proof.
  apply holds_call.
  - intros p fk d n d' H E. exact (INSERT_INTO_users_keyed p fk d n d' H E).
  - intros p fk d n d' H E. exact (INSERT_INTO_orders_keyed p fk d n d' H E).
  - intros v key fk d n d' H E. exact (UPDATE_users_keyed v key fk d n d' H E).
  - intros key fk d n d' H E. exact (DELETE_FROM_users_keyed key fk d n d' H E).
  - now intros d H.
  - now intros d H.
Qed.

(** On a file created by the script, whatever calls are made, no two rows
    of [users] share an id and no two rows of [orders] an [order_id]. *)
Lemma keyed_reachable (ops : list Call) :
  keyed (db (run_calls ops (connect empty_db))) /\
  keyed (durable (run_calls ops (connect empty_db))).
Proof.
  assert (H : holds keyed (connect empty_db)) by (repeat split; constructor).
  revert H. generalize (connect empty_db).
  induction ops as [|op ops IH]; intros c H; [exact H|].
  cbn [run_calls fold_left]. apply IH. now apply keyed_call.
Qed.

(** With ids unique, the update is the plain rewriting of the rows that
    carry the name. *)
Lemma map_fixed {A} (f : A -> A) (l : list A) :
  (forall x, In x l -> f x = x) -> map f l = l.
Proof.
  induction l as [|a l IH]; cbn [map]; intros H; [reflexivity|].
  rewrite H by now left. f_equal. apply IH. intros x Hx. apply H. now right.
Qed.

Lemma write_row_map (v r : Z) (us : list User) :
  NoDup (map id us) ->
  forall old, find (fun u => id u =? r) us = Some old ->
  write_row r (set_age v old) us
  = map (fun u => if id u =? r then set_age v u else u) us.
Proof.
  induction us as [|u us IH]; intros Hnd old F; [discriminate|].
  inversion Hnd as [|? ? Hn Hd]; subst. cbn [find] in F. cbn [write_row map].
  destruct (id u =? r) eqn:E.
  - injection F as <-. f_equal. symmetry. apply map_fixed. intros x Hx.
    destruct (id x =? r) eqn:Ex; [|reflexivity].
    apply Z.eqb_eq in E. apply Z.eqb_eq in Ex.
    exfalso. apply Hn. rewrite E, <- Ex. now apply in_map.
  - f_equal. now apply IH.
Qed.

Lemma update_row_map (v : Z) (us : list User) (r : Z) :
  NoDup (map id us) ->
  update_row false v us r = map (fun u => if id u =? r then set_age v u else u) us.
Proof.
  intros Hnd. unfold update_row.
  destruct (find _ us) as [old|] eqn:F.
  - now apply write_row_map.
  - symmetry. apply map_fixed. intros x Hx.
    apply (find_none _ _ F) in Hx. now rewrite Hx.
Qed.

Lemma fold_update_row_map (v : Z) (rs : list Z) (us : list User) :
  NoDup (map id us) ->
  fold_left (update_row false v) rs us
  = map (fun u => if existsb (Z.eqb (id u)) rs then set_age v u else u) us.
Proof.
  revert us. induction rs as [|r rs IH]; intros us Hnd; cbn [fold_left existsb].
  - symmetry. now apply map_fixed.
  - rewrite IH by now rewrite update_row_ids.
    rewrite update_row_map by assumption. rewrite map_map.
    apply map_ext. intros u. destruct (id u =? r) eqn:E.
    + cbn [id set_age orb]. now destruct (existsb _ rs).
    + reflexivity.
Qed.

Lemma UPDATE_users_rows (v : Z) (key : string) (fk : bool) (d : Database) :
  NoDup (map id (users d)) ->
  exists n d',
    UPDATE_users_SET_age v key fk d = inr (n, d') /\
    n = Z.of_nat (List.length (filter (fun u => (name u =? key)%string) (users d))) /\
    orders d' = orders d /\
    users d'
    = map (fun u => if (name u =? key)%string then set_age v u else u) (users d).
Proof.
  intros Hnd. unfold UPDATE_users_SET_age. do 2 eexists.
  split; [reflexivity|]. split; [now rewrite length_map|]. split; [reflexivity|].
  cbn [users set_users].
  assert (T : forall b, fold_left (update_row b v)
                (map id (filter (fun u => (name u =? key)%string) (users d))) (users d)
              = fold_left (update_row false v)
                (map id (filter (fun u => (name u =? key)%string) (users d))) (users d)).
  { intros [|]; [now apply fold_update_row_trigger | reflexivity]. }
  rewrite T, fold_update_row_map by assumption.
  apply map_ext_in. intros u Hu.
  destruct (name u =? key)%string eqn:Pu.
  - assert (X : existsb (Z.eqb (id u))
                  (map id (filter (fun u => (name u =? key)%string) (users d))) = true).
    { apply existsb_exists. exists (id u). split; [|apply Z.eqb_refl].
      apply in_map, filter_In. now split. }
    now rewrite X.
  - destruct (existsb _ _) eqn:X; [|reflexivity].
    apply existsb_exists in X. destruct X as [r [Hr Er]].
    apply Z.eqb_eq in Er. apply in_map_iff in Hr.
    destruct Hr as [u' [Eu Hu']]. apply filter_In in Hu'. destruct Hu' as [Hu' Pu'].
    assert (u' = u) by (apply (NoDup_map_inj id (users d)); auto; congruence).
    subst u'. congruence.
Qed.

(** ** The listings *)

Lemma like_Any_nil p : like (Any :: p) [] = like p [].
Proof. cbn. apply orb_false_r. Qed.

Lemma like_Any_cons p c s : like (Any :: p) (c :: s) = like p (c :: s) || like (Any :: p) s.
Proof. reflexivity. Qed.

Lemma like_Any p s :
  like (Any :: p) s = true <-> exists pre suf, s = pre ++ suf /\ like p suf = true.
Proof.
  induction s as [|c s IH].
  - rewrite like_Any_nil. split.
    + intros H. now exists [], [].
    + intros [pre [suf [E H]]]. symmetry in E. apply app_eq_nil in E.
      destruct E as [_ ->]. exact H.
  - rewrite like_Any_cons, orb_true_iff, IH. split.
    + intros [H | [pre [suf [-> H]]]].
      * now exists [], (c :: s).
      * now exists (c :: pre), suf.
    + intros [[|c' pre] [suf [E H]]]; cbn in E.
      * left. now subst suf.
      * right. injection E as -> ->. now exists pre, suf.
Qed.

Lemma like_Lit lits s :
  like (map Lit lits) s = true <-> map to_lower s = map to_lower lits.
Proof.
  revert s. induction lits as [|c lits IH]; intros [|d s]; cbn [map like]; try easy.
  unfold same_letter. rewrite andb_true_iff, Ascii.eqb_eq, IH. split.
  - intros [-> ->]. reflexivity.
  - intros E. injection E as E1 E2. now split.
Qed.

(** The text matches ['%@example.com'] exactly when it ends in
    [@example.com], the case of ASCII letters apart. *)
Lemma LIKE_example_com (e : string) :
  LIKE like_pattern e = true <-> ends_in_example_com e.
Proof.
  unfold LIKE, like_pattern, ends_in_example_com. rewrite like_Any.
  split; intros [pre [suf [E H]]]; exists pre, suf; (split; [exact E|]).
  - apply like_Lit in H. exact H.
  - apply like_Lit. exact H.
Qed.

Lemma execute_query_rows {A} (q : Database -> Error + A) (c : Connection) (a : A) :
  usable c -> q (db c) = inr a -> execute_query q c = (inr a, c).
Proof.
  intros Hu E. rewrite (execute_query_usable _ _ Hu). now rewrite E.
Qed.

(** The listing with LIKE returns the users whose email ends in
    [@example.com], whatever the case of the letters, and no other. *)
Theorem LIKE_listing (c : Connection) :
  usable c ->
  exists rows,
    execute_query SELECT_users_WHERE_email_LIKE c = (inr rows, c) /\
    forall u, In u rows <-> In u (users (db c)) /\ ends_in_example_com (email u).
Proof.
  intros Hu. eexists. split; [now apply execute_query_rows|].
  intros u. rewrite filter_In, LIKE_example_com. reflexivity.
Qed.

Lemma LIKE_listing_witness :
  exists rows,
    execute_query SELECT_users_WHERE_email_LIKE quiet_key_conn
    = (inr rows, quiet_key_conn) /\
    forall u, In u rows <->
              In u (users (db quiet_key_conn)) /\ ends_in_example_com (email u).
Proof.
  apply (LIKE_listing quiet_key_conn). split; reflexivity.
Defined.

(** Letter case does not matter to LIKE; a longer domain does. *)
Example LIKE_cases :
  LIKE like_pattern "BOB@Example.COM" = true /\
  LIKE like_pattern "@example.com" = true /\
  LIKE like_pattern "bob@example.com.org" = false /\
  LIKE like_pattern "bob@example,com" = false.
Proof. repeat split. Qed.

Lemma insert_by_age_perm u l : Permutation (insert_by_age u l) (u :: l).
Proof.
  induction l as [|x l IH]; cbn [insert_by_age]; [reflexivity|].
  destruct (age u <=? age x); [reflexivity|].
  rewrite IH. apply perm_swap.
Qed.

Lemma insert_by_age_sorted u l :
  StronglySorted (fun a b => age a <= age b) l ->
  StronglySorted (fun a b => age a <= age b) (insert_by_age u l).
Proof.
  induction l as [|x l IH]; cbn [insert_by_age]; intros H.
  - repeat constructor.
  - inversion H as [|? ? Hs Hf]; subst.
    destruct (age u <=? age x) eqn:E.
    + apply Z.leb_le in E. constructor; [exact H|].
      constructor; [exact E|]. eapply Forall_impl; [|exact Hf].
      cbn. intros a Ha. lia.
    + apply Z.leb_gt in E. constructor; [now apply IH|].
      apply Forall_forall. intros a Ha.
      apply (Permutation_in _ (insert_by_age_perm u l)) in Ha.
      destruct Ha as [<- | Ha]; [lia|].
      rewrite Forall_forall in Hf. now apply Hf.
Qed.

(** The sorter does not move a row past a row of its own age. *)
Lemma insert_by_age_stable a u l :
  filter (fun x => age x =? a) (insert_by_age u l)
  = filter (fun x => age x =? a) (u :: l).
Proof.
  induction l as [|x l IH]; cbn [insert_by_age]; [reflexivity|].
  destruct (age u <=? age x) eqn:E; [reflexivity|].
  apply Z.leb_gt in E. cbn [filter] in *. rewrite IH.
  destruct (age x =? a) eqn:Ex; destruct (age u =? a) eqn:Eu; try reflexivity.
  apply Z.eqb_eq in Ex, Eu. lia.
Qed.

(** The listing by age holds every row of [users] once and no other row,
    never a row before a row of a smaller age, and the rows of one age in
    the order they have in the table. *)
Theorem ORDER_BY_age_listing (c : Connection) :
  usable c ->
  exists rows,
    execute_query SELECT_users_ORDER_BY_age c = (inr rows, c) /\
    Permutation rows (users (db c)) /\
    StronglySorted (fun a b => age a <= age b) rows /\
    forall a, filter (fun u => age u =? a) rows
              = filter (fun u => age u =? a) (users (db c)).
Proof.
  intros Hu. eexists. split; [now apply execute_query_rows|].
  induction (users (db c)) as [|u us [IH1 [IH2 IH3]]]; cbn [fold_right].
  - split; [|split]; [constructor | constructor | reflexivity].
  - split; [|split].
    + rewrite insert_by_age_perm. now constructor.
    + now apply insert_by_age_sorted.
    + intros a. rewrite insert_by_age_stable. cbn [filter]. now rewrite IH3.
Qed.

Lemma ORDER_BY_age_listing_witness :
  exists rows,
    execute_query SELECT_users_ORDER_BY_age seeded = (inr rows, seeded) /\
    Permutation rows (users (db seeded)) /\
    StronglySorted (fun a b => age a <= age b) rows /\
    forall a, filter (fun u => age u =? a) rows
              = filter (fun u => age u =? a) (users (db seeded)).
Proof.
  apply (ORDER_BY_age_listing seeded). split; reflexivity.
Defined.

(** Two users of one age are listed in table order, whichever way their
    ids and names compare. *)
Example ORDER_BY_age_ties :
  SELECT_users_ORDER_BY_age
    (with_tables empty_db
       [mkUser 2 "Zoe" 30 "zoe@example.com" None;
        mkUser 1 "Abe" 30 "abe@example.com" None;
        mkUser 3 "Kim" 20 "kim@example.com" None] [])
  = inr [mkUser 3 "Kim" 20 "kim@example.com" None;
         mkUser 2 "Zoe" 30 "zoe@example.com" None;
         mkUser 1 "Abe" 30 "abe@example.com" None].
Proof. reflexivity. Qed.

Lemma name_ge_trans a b c : name_ge a b -> name_ge b c -> name_ge a c.
Proof.
  unfold name_ge. intros H1 H2 H3.
  apply OrderedTypeEx.String_as_OT.cmp_lt in H3.
  destruct (String.compare (name a) (name b)) eqn:E; [| easy |].
  - apply String.compare_eq_iff in E. rewrite E in H3.
    now apply OrderedTypeEx.String_as_OT.cmp_lt in H3.
  - assert (E' : String.compare (name b) (name a) = Lt).
    { rewrite String.compare_antisym, E. reflexivity. }
    apply OrderedTypeEx.String_as_OT.cmp_lt in E'.
    apply H2. apply OrderedTypeEx.String_as_OT.cmp_lt.
    now apply (OrderedTypeEx.String_as_OT.lt_trans _ (name a)).
Qed.

Lemma insert_by_name_desc_perm u l : Permutation (insert_by_name_desc u l) (u :: l).
Proof.
  induction l as [|x l IH]; cbn [insert_by_name_desc]; [reflexivity|].
  destruct (String.compare (name x) (name u)); try reflexivity;
    rewrite IH; apply perm_swap.
Qed.

Lemma insert_by_name_desc_sorted u l :
  StronglySorted name_ge l -> StronglySorted name_ge (insert_by_name_desc u l).
Proof.
  induction l as [|x l IH]; cbn [insert_by_name_desc]; intros H.
  - repeat constructor.
  - inversion H as [|? ? Hs Hf]; subst.
    assert (G : String.compare (name x) (name u) <> Gt ->
                StronglySorted name_ge (u :: x :: l)).
    { intros E.
      assert (U : name_ge u x).
      { unfold name_ge. rewrite String.compare_antisym.
        destruct (String.compare (name x) (name u)); [discriminate | discriminate |].
        now contradiction E. }
      constructor; [exact H|]. constructor; [exact U|].
      eapply Forall_impl; [|exact Hf].
      intros a Ha. now apply (name_ge_trans u x a). }
    destruct (String.compare (name x) (name u)) eqn:E;
      [apply G; discriminate | apply G; discriminate |].
    constructor; [now apply IH|].
    apply Forall_forall. intros a Ha.
    apply (Permutation_in _ (insert_by_name_desc_perm u l)) in Ha.
    destruct Ha as [<- | Ha].
    + unfold name_ge. rewrite E. discriminate.
    + rewrite Forall_forall in Hf. now apply Hf.
Qed.

(** The sorter does not move a row past a row of its own name. *)
Lemma insert_by_name_desc_stable n u l :
  filter (fun x => (name x =? n)%string) (insert_by_name_desc u l)
  = filter (fun x => (name x =? n)%string) (u :: l).
Proof.
  induction l as [|x l IH]; cbn [insert_by_name_desc]; [reflexivity|].
  destruct (String.compare (name x) (name u)) eqn:E; try reflexivity.
  cbn [filter] in *. rewrite IH.
  destruct (name x =? n)%string eqn:Ex; destruct (name u =? n)%string eqn:Eu;
    try reflexivity.
  apply String.eqb_eq in Ex, Eu.
  pose proof (String.compare_antisym (name x) (name u)) as Q.
  rewrite Ex, Eu in E, Q. rewrite E in Q. discriminate.
Qed.

(** The listing by name, descending, holds every row of [users] once and
    no other row, never a row before a row of a name that is greater in
    byte order, and the rows of one name in the order they have in the
    table. *)
Theorem ORDER_BY_name_DESC_listing (c : Connection) :
  usable c ->
  exists rows,
    execute_query SELECT_users_ORDER_BY_name_DESC c = (inr rows, c) /\
    Permutation rows (users (db c)) /\
    StronglySorted name_ge rows /\
    forall n, filter (fun u => (name u =? n)%string) rows
              = filter (fun u => (name u =? n)%string) (users (db c)).
Proof.
  intros Hu. eexists. split; [now apply execute_query_rows|].
  induction (users (db c)) as [|u us [IH1 [IH2 IH3]]]; cbn [fold_right].
  - split; [|split]; [constructor | constructor | reflexivity].
  - split; [|split].
    + rewrite insert_by_name_desc_perm. now constructor.
    + now apply insert_by_name_desc_sorted.
    + intros n. rewrite insert_by_name_desc_stable. cbn [filter]. now rewrite IH3.
Qed.

Lemma ORDER_BY_name_DESC_listing_witness :
  exists rows,
    execute_query SELECT_users_ORDER_BY_name_DESC seeded = (inr rows, seeded) /\
    Permutation rows (users (db seeded)) /\
    StronglySorted name_ge rows /\
    forall n, filter (fun u => (name u =? n)%string) rows
              = filter (fun u => (name u =? n)%string) (users (db seeded)).
Proof.
  apply (ORDER_BY_name_DESC_listing seeded). split; reflexivity.
Defined.

(** Two users of one name are listed in table order. *)
Example ORDER_BY_name_DESC_ties :
  SELECT_users_ORDER_BY_name_DESC
    (with_tables empty_db
       [mkUser 2 "Ann" 30 "ann2@example.com" None;
        mkUser 1 "Ann" 40 "ann1@example.com" None;
        mkUser 3 "Zoe" 20 "zoe@example.com" None] [])
  = inr [mkUser 3 "Zoe" 20 "zoe@example.com" None;
         mkUser 2 "Ann" 30 "ann2@example.com" None;
         mkUser 1 "Ann" 40 "ann1@example.com" None].
Proof. reflexivity. Qed.

Lemma Subseq_filter {A} (keep : A -> bool) (l : list A) : Subseq (filter keep l) l.
Proof.
  induction l as [|x l IH]; cbn [filter]; [constructor|].
  destruct (keep x); now constructor.
Qed.

Lemma Subseq_In {A} (l l' : list A) x : Subseq l l' -> In x l -> In x l'.
Proof.
  induction 1 as [|y l l' H IH|y l l' H IH]; cbn; intuition.
Qed.

Lemma city_IN_spec (u : User) :
  city_IN u = true <-> city u = Some "New York" \/ city u = Some "Chicago".
Proof.
  unfold city_IN. destruct (city u) as [ct|].
  - rewrite orb_true_iff, !String.eqb_eq. split.
    + intros [-> | ->]; auto.
    + intros [E | E]; injection E as ->; auto.
  - split; [discriminate|]. intros [E | E]; discriminate.
Qed.

(** Lines 30-78 on a usable connection: every listing succeeds and the
    connection is as before.  The three filters return rows of [users] in
    table order; the filter on the city returns exactly the rows whose city
    is New York or Chicago, so never a row without a city; LIMIT 2 returns
    the first two rows, or all of them when there are fewer. *)
Theorem listings_read_only (c : Connection) :
  usable c ->
  exists l,
    listings c = (inr l, c) /\
    all_users l = users (db c) /\
    List.length (names_and_ages l) = List.length (users (db c)) /\
    Subseq (older l) (users (db c)) /\
    Subseq (at_example_com l) (users (db c)) /\
    Subseq (in_two_cities l) (users (db c)) /\
    (forall u, In u (in_two_cities l) <->
               In u (users (db c)) /\
               (city u = Some "New York" \/ city u = Some "Chicago")) /\
    (exists rest, users (db c) = first_two l ++ rest) /\
    List.length (first_two l) = Nat.min 2 (List.length (users (db c))).
Proof.
  intros Hu. eexists. split.
  - unfold listings, bind.
    repeat (erewrite execute_query_rows; [|exact Hu|reflexivity]).
    reflexivity.
  - cbn [all_users names_and_ages older at_example_com in_two_cities first_two].
    split; [reflexivity|]. split; [apply length_map|].
    split; [apply Subseq_filter|]. split; [apply Subseq_filter|].
    split; [apply Subseq_filter|]. split.
    + intros u. rewrite filter_In, city_IN_spec. reflexivity.
    + split; [|apply length_firstn].
      exists (skipn 2 (users (db c))). symmetry. apply firstn_skipn.
Qed.

Lemma listings_read_only_witness :
  exists l,
    listings seeded = (inr l, seeded) /\
    all_users l = users (db seeded) /\
    List.length (names_and_ages l) = List.length (users (db seeded)) /\
    Subseq (older l) (users (db seeded)) /\
    Subseq (at_example_com l) (users (db seeded)) /\
    Subseq (in_two_cities l) (users (db seeded)) /\
    (forall u, In u (in_two_cities l) <->
               In u (users (db seeded)) /\
               (city u = Some "New York" \/ city u = Some "Chicago")) /\
    (exists rest, users (db seeded) = first_two l ++ rest) /\
    List.length (first_two l) = Nat.min 2 (List.length (users (db seeded))).
Proof.
  apply (listings_read_only seeded). split; reflexivity.
Defined.

(** ** Inserts that go through *)

Lemma fresh_emails_tail present p batch :
  fresh_emails present (p :: batch) ->
  ~ In (email_of p) present /\ fresh_emails (present ++ [email_of p]) batch.
Proof.
  intros [Hnd Hf]. cbn [map] in Hnd. inversion Hnd as [|? ? Hn Hd]; subst.
  split; [apply Hf; now left|]. split; [exact Hd|].
  intros q Hq Hin. apply in_app_iff in Hin. destruct Hin as [Hin | [E | []]].
  - apply (Hf q); [now right | exact Hin].
  - apply Hn. rewrite E. now apply in_map.
Qed.

Lemma set_users_twice (d : Database) a b us s :
  set_users (set_users d a b) us s = set_users d us s.
Proof. reflexivity. Qed.

(** The statements of a batch without a clash, whose ages fit in 64 bits,
    on a table with rowids left for it: every record becomes a row, in the
    order of the batch, under the rowids that follow the last one; nothing
    else in the database changes. *)
Lemma steps_users_fresh (batch : list UserParams) (c : Connection) :
  fresh_emails (map email (users (db c))) batch ->
  storable batch ->
  room (last_rowid (map id (users (db c))) (users_seq (db c))) (List.length batch) ->
  exists d',
    steps INSERT_INTO_users batch c
    = (inr (Z.of_nat (List.length batch)), set_db c d') /\
    users d'
    = users (db c)
      ++ numbered user_row (last_rowid (map id (users (db c))) (users_seq (db c))) batch /\
    last_rowid (map id (users d')) (users_seq d')
    = last_rowid (map id (users (db c))) (users_seq (db c))
      + Z.of_nat (List.length batch) /\
    set_users d' (users (db c)) (users_seq (db c)) = db c.
Proof.
  revert c. induction batch as [|p batch IH]; intros c Hf Hs Hr.
  - exists (db c). cbn [steps numbered List.length]. unfold ret.
    rewrite set_db_same, app_nil_r, Z.add_0_r, set_users_same.
    split; [reflexivity|]. split; [reflexivity|]. split; reflexivity.
  - apply fresh_emails_tail in Hf. destruct Hf as [Hn Hf].
    unfold room in Hr. cbn [List.length] in Hr.
    cbn [steps]. unfold bind at 1. unfold step at 1.
    rewrite INSERT_INTO_users_room by (try (apply Hs; now left); lia).
    destruct (existsb _ (users (db c))) eqn:X.
    { apply email_present in X. contradiction. }
    set (M := last_rowid (map id (users (db c))) (users_seq (db c))) in *.
    set (d1 := set_users (db c) _ (M + 1)).
    assert (M1 : last_rowid (map id (users d1)) (users_seq d1) = M + 1).
    { subst d1 M. cbn [users users_seq set_users]. rewrite map_app. cbn [map].
      rewrite id_user_row. apply last_rowid_snoc. }
    destruct (IH (set_db c d1)) as [d' [E [U [L R]]]].
    { cbn [db set_db]. subst d1. cbn [users set_users]. rewrite map_app.
      cbn [map]. now rewrite email_user_row. }
    { intros q Hq. apply Hs. now right. }
    { cbn [db set_db]. rewrite M1. unfold room. lia. }
    cbn [db set_db] in E, U, L, R.
    rewrite M1 in U, L.
    exists d'. unfold bind. rewrite E. unfold ret. split; [|split; [|split]].
    + f_equal. f_equal. cbn [List.length]. lia.
    + rewrite U. subst d1. cbn [users set_users numbered].
      now rewrite <- app_assoc.
    + rewrite L. cbn [List.length]. lia.
    + rewrite <- (set_users_twice d' (users d1) (users_seq d1)), R.
      subst d1. rewrite set_users_twice. apply set_users_same.
Qed.

Lemma executemany_usable {P} (stmt : P -> bool -> Database -> Error + (Z * Database))
    (ps : list P) (c : Connection) :
  usable c -> executemany stmt ps c = steps stmt ps (snd (begin_implicit c)).
Proof.
  intros Hu. unfold executemany, bind.
  rewrite (check_cursor_usable _ Hu).
  destruct (begin_implicit c) as [r c1] eqn:E.
  pose proof (fst_begin_implicit c) as F. rewrite E in F. cbn in F.
  now subst r.
Qed.

Lemma commit_open (c : Connection) :
  handle c = Open -> commit c = (inr tt, set_journal c None).
Proof.
  intros H. unfold commit, bind. now rewrite (check_connection_open _ H).
Qed.

(** A batch in which no email is taken and none occurs twice, whose ages
    fit in 64 bits, on a table that has rowids left for it, is inserted
    whole and committed: the users table gains the records of the batch,
    in their order, under the consecutive rowids that follow the largest
    one the table has held; the orders are untouched. *)
Theorem seed_users_inserts_all (c : Connection) (batch : list UserParams) :
  usable c ->
  fresh_emails (map email (users (db c))) batch ->
  storable batch ->
  room (last_rowid (map id (users (db c))) (users_seq (db c))) (List.length batch) ->
  exists c',
    seed_users batch c = (inr tt, c') /\
    usable c' /\ journal c' = None /\
    users (db c')
    = users (db c)
      ++ numbered user_row (last_rowid (map id (users (db c))) (users_seq (db c))) batch /\
    orders (db c') = orders (db c).
Proof.
  intros Hu Hf Hs Hr.
  pose proof (usable_begin_implicit c Hu) as H0.
  pose proof (db_begin_implicit c) as D0.
  set (c0 := snd (begin_implicit c)) in *.
  destruct (steps_users_fresh batch c0) as [d' [E [U [_ R]]]];
    [now rewrite D0 | exact Hs | now rewrite D0 |].
  rewrite D0 in U, R.
  unfold seed_users, bind. rewrite (executemany_usable _ _ _ Hu). fold c0. rewrite E.
  rewrite commit_open by (cbn; apply H0).
  eexists. split; [reflexivity|].
  cbn [set_journal set_db handle cursor_closed journal db].
  split; [exact H0|]. split; [reflexivity|]. split; [exact U|].
  transitivity (orders (set_users d' (users (db c)) (users_seq (db c))));
    [reflexivity | now rewrite R].
Qed.

Lemma seed_users_inserts_all_witness :
  exists c',
    seed_users users_data (connect stale_file) = (inr tt, c') /\
    usable c' /\ journal c' = None /\
    users (db c')
    = users (db (connect stale_file))
      ++ numbered user_row
           (last_rowid (map id (users (db (connect stale_file))))
                       (users_seq (db (connect stale_file)))) users_data /\
    orders (db c') = orders (db (connect stale_file)).
Proof.
  apply (seed_users_inserts_all (connect stale_file) users_data).
  - split; reflexivity.
  - split.
    + cbn. repeat constructor; cbn; intuition discriminate.
    + cbn. intros p [<- | [<- | [<- | [<- | []]]]]; cbn; intuition discriminate.
  - intros p [<- | [<- | [<- | [<- | []]]]]; reflexivity.
  - unfold room. vm_compute. discriminate.
Defined.

(** On a table whose sequence has reached the largest rowid, the seed
    stops at its first record: the table is full. *)
Example seed_users_table_full :
  fst (seed_users users_data
         (connect (mkDatabase [] [] (2 ^ 63 - 1) 0 false false)))
  = inl OperationalError.
Proof. reflexivity. Qed.

(** On the file with one earlier user of rowid 3, the seed gets the rowids
    4 to 7. *)
Example seed_users_rowids :
  map id (users (db (snd (seed_users users_data (connect stale_file)))))
  = [3; 4; 5; 6; 7].
Proof. vm_compute. reflexivity. Qed.

Lemma set_orders_same (d : Database) : set_orders d (orders d) (orders_seq d) = d.
Proof. now destruct d. Qed.

Lemma set_orders_twice (d : Database) a b os s :
  set_orders (set_orders d a b) os s = set_orders d os s.
Proof. reflexivity. Qed.

Lemma steps_orders_unenforced (batch : list OrderParams) (c : Connection) :
  foreign_keys c = false ->
  storable_orders batch ->
  room (last_rowid (map order_id (orders (db c))) (orders_seq (db c)))
       (List.length batch) ->
  exists d',
    steps INSERT_INTO_orders batch c
    = (inr (Z.of_nat (List.length batch)), set_db c d') /\
    orders d'
    = orders (db c)
      ++ numbered order_row
           (last_rowid (map order_id (orders (db c))) (orders_seq (db c))) batch /\
    set_orders d' (orders (db c)) (orders_seq (db c)) = db c.
Proof.
  revert c. induction batch as [|p batch IH]; intros c Hf Hs Hr.
  - exists (db c). cbn [steps numbered List.length]. unfold ret.
    rewrite set_db_same, app_nil_r, set_orders_same.
    split; [reflexivity|]. split; reflexivity.
  - unfold room in Hr. cbn [List.length] in Hr.
    cbn [steps]. unfold bind at 1. unfold step at 1.
    rewrite INSERT_INTO_orders_room
      by (try (apply (Hs p); now left); lia).
    rewrite Hf. cbn [andb].
    set (M := last_rowid (map order_id (orders (db c))) (orders_seq (db c))) in *.
    set (d1 := set_orders (db c) _ (M + 1)).
    assert (M1 : last_rowid (map order_id (orders d1)) (orders_seq d1) = M + 1).
    { subst d1 M. cbn [orders orders_seq set_orders]. rewrite map_app.
      cbn [map]. rewrite order_id_order_row. apply last_rowid_snoc. }
    destruct (IH (set_db c d1)) as [d' [E [U R]]].
    { exact Hf. }
    { intros q Hq. apply Hs. now right. }
    { cbn [db set_db]. rewrite M1. unfold room. lia. }
    cbn [db set_db] in E, U, R.
    rewrite M1 in U.
    exists d'. unfold bind. rewrite E. unfold ret. split; [|split].
    + f_equal. f_equal. cbn [List.length]. lia.
    + rewrite U. subst d1. cbn [orders set_orders numbered].
      now rewrite <- app_assoc.
    + rewrite <- (set_orders_twice d' (orders d1) (orders_seq d1)), R.
      subst d1. rewrite set_orders_twice. apply set_orders_same.
Qed.

(** On a connection that does not enforce foreign keys, as the script's,
    the bulk insert of orders does not look at the users the orders point
    at: when the user ids and quantities fit in 64 bits and the table has
    rowids left for the batch, every record becomes a row under the next
    rowids, is committed, and the users table is untouched. *)
Theorem seed_orders_unchecked (c : Connection) (batch : list OrderParams) :
  usable c -> foreign_keys c = false ->
  storable_orders batch ->
  room (last_rowid (map order_id (orders (db c))) (orders_seq (db c)))
       (List.length batch) ->
  exists c',
    seed_orders batch c = (inr tt, c') /\
    usable c' /\ journal c' = None /\
    orders (db c')
    = orders (db c)
      ++ numbered order_row
           (last_rowid (map order_id (orders (db c))) (orders_seq (db c))) batch /\
    users (db c') = users (db c).
Proof.
  intros Hu Hf Hs Hr.
  pose proof (usable_begin_implicit c Hu) as H0.
  pose proof (db_begin_implicit c) as D0.
  assert (F0 : foreign_keys (snd (begin_implicit c)) = false).
  { unfold begin_implicit. now destruct (journal c). }
  set (c0 := snd (begin_implicit c)) in *.
  destruct (steps_orders_unenforced batch c0 F0) as [d' [E [U R]]];
    [exact Hs | now rewrite D0 |].
  rewrite D0 in U, R.
  unfold seed_orders, bind. rewrite (executemany_usable _ _ _ Hu). fold c0. rewrite E.
  rewrite commit_open by (cbn; apply H0).
  eexists. split; [reflexivity|].
  cbn [set_journal set_db handle cursor_closed journal db].
  split; [exact H0|]. split; [reflexivity|]. split; [exact U|].
  transitivity (users (set_orders d' (orders (db c)) (orders_seq (db c))));
    [reflexivity | now rewrite R].
Qed.

Lemma seed_orders_unchecked_witness :
  exists c',
    seed_orders [(42, "Ghost", 1)] (connect empty_db) = (inr tt, c') /\
    usable c' /\ journal c' = None /\
    orders (db c')
    = orders (db (connect empty_db))
      ++ numbered order_row
           (last_rowid (map order_id (orders (db (connect empty_db))))
                       (orders_seq (db (connect empty_db)))) [(42, "Ghost", 1)] /\
    users (db c') = users (db (connect empty_db)).
Proof.
  apply (seed_orders_unchecked (connect empty_db) [(42, "Ghost", 1)]).
  - split; reflexivity.
  - reflexivity.
  - intros p [<- | []]. split; reflexivity.
  - unfold room. vm_compute. discriminate.
Defined.

(** A quantity that does not fit in 64 bits cannot be bound: the bulk
    insert of orders stops there, foreign keys enforced or not. *)
Example seed_orders_quantity_out_of_range :
  fst (seed_orders [(1, "Laptop", 2 ^ 63)] (connect empty_db)) = inl OverflowError.
Proof. reflexivity. Qed.

(** ** Rolling back *)

(** Statements touch nothing of the connection but the database it sees. *)
Lemma steps_frame {P} (stmt : P -> bool -> Database -> Error + (Z * Database))
    (ps : list P) (c : Connection) :
  snd (steps stmt ps c) = set_db c (db (snd (steps stmt ps c))).
Proof.
  revert c. induction ps as [|p ps IH]; intros c; cbn [steps].
  - unfold ret. cbn [snd]. symmetry. apply set_db_same.
  - unfold bind, step.
    destruct (stmt p (foreign_keys c) (db c)) as [e|[n d]]; cbn [snd].
    + symmetry. apply set_db_same.
    + specialize (IH (set_db c d)).
      destruct (steps stmt ps (set_db c d)) as [[e|m] c1]; cbn [snd] in *;
        rewrite IH; reflexivity.
Qed.

(** A rollback after a bulk insert run in autocommit puts the connection
    back exactly as it was, rows and counters, whether the batch went
    through or stopped at a record. *)
Theorem rollback_undoes_executemany {P}
    (stmt : P -> bool -> Database -> Error + (Z * Database))
    (ps : list P) (c : Connection) :
  usable c -> journal c = None ->
  rollback (snd (executemany stmt ps c)) = (inr tt, c).
Proof.
  intros Hu Hj. rewrite (executemany_usable _ _ _ Hu).
  rewrite steps_frame.
  destruct c as [h cc f d j]. destruct Hu as [Hh Hc]. cbn in Hh, Hc, Hj. subst.
  unfold begin_implicit. cbn [journal snd set_journal handle cursor_closed foreign_keys db].
  unfold rollback, bind, check_connection, set_db, durable. cbn. reflexivity.
Qed.

Lemma rollback_undoes_executemany_witness :
  rollback (snd (executemany INSERT_INTO_users clash (connect empty_db)))
  = (inr tt, connect empty_db).
Proof.
  apply (rollback_undoes_executemany INSERT_INTO_users clash (connect empty_db)).
  - split; reflexivity.
  - reflexivity.
Defined.

(** ** Rowids *)

Lemma trigger_body_ids old new us : map id (trigger_body old new us) = map id us.
Proof.
  unfold trigger_body. rewrite map_map. apply map_ext.
  intros u. now destruct (id u =? id old).
Qed.

Lemma update_row_keeps_ids trig v us r : map id (update_row trig v us r) = map id us.
Proof.
  unfold update_row. destruct (find _ us) as [old|] eqn:F; [|reflexivity].
  apply find_id_some in F. destruct F as [F _].
  destruct trig; [rewrite trigger_body_ids|]; now apply write_row_ids.
Qed.

Lemma fold_update_row_keeps_ids trig v rs us :
  map id (fold_left (update_row trig v) rs us) = map id us.
Proof.
  revert us. induction rs as [|r rs IH]; intros us; cbn [fold_left]; [reflexivity|].
  rewrite IH. apply update_row_keeps_ids.
Qed.

Lemma bounded_kept_by_statements :
  (forall p, kept_by bounded (INSERT_INTO_users p)) /\
  (forall p, kept_by bounded (INSERT_INTO_orders p)) /\
  (forall v key, kept_by bounded (UPDATE_users_SET_age v key)) /\
  (forall key, kept_by bounded (DELETE_FROM_users key)).
Proof.
  unfold kept_by, bounded. split; [|split; [|split]].
  - intros p fk d n d' [Hu Ho] E. apply INSERT_INTO_users_inr in E.
    destruct E as [i [Ei [_ [_ ->]]]]. apply next_rowid_inr in Ei.
    destruct Ei as [-> _]. split; [|exact Ho].
    cbn [users users_seq set_users]. intros u Hin. apply in_app_iff in Hin.
    destruct Hin as [Hin | [<- | []]]; [|rewrite id_user_row; lia].
    apply (in_map id) in Hin.
    apply (proj2 (last_rowid_ge (map id (users d)) (users_seq d))) in Hin. lia.
  - intros p fk d n d' [Hu Ho] E. apply INSERT_INTO_orders_inr in E.
    destruct E as [i [Ei [_ ->]]]. apply next_rowid_inr in Ei.
    destruct Ei as [-> _]. split; [exact Hu|].
    cbn [orders orders_seq set_orders]. intros o Hin. apply in_app_iff in Hin.
    destruct Hin as [Hin | [<- | []]]; [|rewrite order_id_order_row; lia].
    apply (in_map order_id) in Hin.
    apply (proj2 (last_rowid_ge (map order_id (orders d)) (orders_seq d))) in Hin. lia.
  - intros v key fk d n d' [Hu Ho] E. unfold UPDATE_users_SET_age in E.
    injection E as _ <-. split; [|exact Ho].
    cbn [users users_seq set_users]. intros u Hin. apply (in_map id) in Hin.
    rewrite fold_update_row_keeps_ids in Hin. apply in_map_iff in Hin.
    destruct Hin as [u' [<- Hu']]. now apply Hu.
  - intros key fk d n d' [Hu Ho] E. unfold DELETE_FROM_users in E.
    destruct (fk && _); [discriminate|]. injection E as _ <-.
    split; [|exact Ho]. cbn [users users_seq set_users].
    intros u Hin. apply filter_In in Hin. now apply Hu.
Qed.

Lemma bounded_call (op : Call) : preserves (holds bounded) (call op).
Proof.
  destruct bounded_kept_by_statements as [H1 [H2 [H3 H4]]].
  apply holds_call; auto; intros d H; exact H.
Qed.

(** Starting from a file in which no two rows share a rowid and the
    counters are not behind the tables, this stays so after any calls on
    the connection, for what the connection sees and for what the file
    holds. *)
Theorem rowids_stay_sound (file : Database) (ops : list Call) :
  keyed file -> bounded file ->
  keyed (db (run_calls ops (connect file))) /\
  bounded (db (run_calls ops (connect file))) /\
  keyed (durable (run_calls ops (connect file))) /\
  bounded (durable (run_calls ops (connect file))).
Proof.
  intros Hk Hb.
  assert (K : holds keyed (connect file)) by now split.
  assert (B : holds bounded (connect file)) by now split.
  revert K B. generalize (connect file).
  induction ops as [|op ops IH]; intros c K B.
  - destruct K as [K1 K2], B as [B1 B2]. exact (conj K1 (conj B1 (conj K2 B2))).
  - cbn [run_calls fold_left]. apply IH; [now apply keyed_call | now apply bounded_call].
Qed.

Lemma rowids_stay_sound_witness :
  keyed (db (run_calls [Seed_users users_data; Delete_user "Bob"] (connect stale_file))) /\
  bounded (db (run_calls [Seed_users users_data; Delete_user "Bob"] (connect stale_file))) /\
  keyed (durable (run_calls [Seed_users users_data; Delete_user "Bob"] (connect stale_file))) /\
  bounded (durable (run_calls [Seed_users users_data; Delete_user "Bob"] (connect stale_file))).
Proof.
  apply (rowids_stay_sound stale_file [Seed_users users_data; Delete_user "Bob"]).
  - split; cbn; repeat constructor; cbn; tauto.
  - split; cbn; [intros u [<- | []]; cbn; lia | tauto].
Defined.

(** A rowid is not given twice: after a delete, the next user inserted
    gets a rowid above that of every row the table held before the delete,
    the deleted ones included. *)
Theorem rowid_not_reused (d d1 d2 : Database) (key : string) (p : UserParams)
    (fk fk' : bool) (n m : Z) :
  bounded d ->
  DELETE_FROM_users key fk d = inr (n, d1) ->
  INSERT_INTO_users p fk' d1 = inr (m, d2) ->
  exists i,
    users d2 = users d1 ++ [user_row i p] /\
    forall u, In u (users d) -> id u < i.
Proof.
  intros [Hb _] Hd Hi.
  unfold DELETE_FROM_users in Hd. destruct (fk && _); [discriminate|].
  injection Hd as _ <-.
  apply INSERT_INTO_users_inr in Hi. destruct Hi as [i [Ei [_ [_ ->]]]].
  cbn [users users_seq set_users] in *.
  exists i. split; [reflexivity|].
  intros u Hu. specialize (Hb u Hu). apply next_rowid_inr in Ei.
  destruct Ei as [-> _].
  pose proof (proj1 (last_rowid_ge
    (map id (filter (fun u0 => negb (name u0 =? key)%string) (users d))) (users_seq d))).
  lia.
Qed.

Lemma rowid_not_reused_witness :
  exists i,
    users (mkDatabase [mkUser 1 "Alice" 30 "a@x" None; mkUser 3 "Bob" 40 "c@x" None]
                      [] 3 0 false false)
    = users (mkDatabase [mkUser 1 "Alice" 30 "a@x" None] [] 2 0 false false)
      ++ [user_row i ("Bob", 40, "c@x", None)] /\
    forall u,
      In u (users (mkDatabase [mkUser 1 "Alice" 30 "a@x" None;
                               mkUser 2 "Bob" 25 "b@x" None] [] 2 0 false false)) ->
      id u < i.
Proof.
  apply (rowid_not_reused
           (mkDatabase [mkUser 1 "Alice" 30 "a@x" None; mkUser 2 "Bob" 25 "b@x" None]
                       [] 2 0 false false)
           (mkDatabase [mkUser 1 "Alice" 30 "a@x" None] [] 2 0 false false)
           (mkDatabase [mkUser 1 "Alice" 30 "a@x" None; mkUser 3 "Bob" 40 "c@x" None]
                       [] 3 0 false false)
           "Bob" ("Bob", 40, "c@x", None) false false 1 1).
  - split; cbn; [intros u [<- | [<- | []]]; cbn; lia | tauto].
  - reflexivity.
  - reflexivity.
Defined.

(** ** Update and delete *)

Lemma UPDATE_users_closed (v : Z) (key : string) (fk : bool) (d : Database) :
  NoDup (map id (users d)) ->
  UPDATE_users_SET_age v key fk d
  = inr (Z.of_nat (List.length (filter (fun u => (name u =? key)%string) (users d))),
         set_users d
           (map (fun u => if (name u =? key)%string then set_age v u else u) (users d))
           (users_seq d)).
Proof.
  intros Hnd. destruct (UPDATE_users_rows v key fk d Hnd) as [n [d' [E [En [_ Eu]]]]].
  rewrite E. unfold UPDATE_users_SET_age in E. injection E as _ <-.
  cbn [users set_users] in Eu. rewrite Eu, En. reflexivity.
Qed.

Lemma rewrite_age_twice (v : Z) (key : string) (us : list User) :
  let f := fun u => if (name u =? key)%string then set_age v u else u in
  map f (map f us) = map f us /\
  List.length (filter (fun u => (name u =? key)%string) (map f us))
  = List.length (filter (fun u => (name u =? key)%string) us) /\
  map id (map f us) = map id us.
Proof.
  intros f. split; [|split].
  - rewrite map_map. apply map_ext. intros u. subst f. cbn beta.
    destruct (name u =? key)%string eqn:E; cbn [name set_age]; now rewrite E.
  - induction us as [|u us IH]; [reflexivity|]. cbn [map filter].
    assert (E : (name (f u) =? key)%string = (name u =? key)%string).
    { subst f. cbn beta. now destruct (name u =? key)%string eqn:E. }
    rewrite E. destruct (name u =? key)%string; cbn [List.length]; now rewrite IH.
  - rewrite map_map. apply map_ext. intros u. subst f. cbn beta.
    now destruct (name u =? key)%string.
Qed.

(** With ids unique, [update_user] sets the age of every row that carries
    the name and of no other row, returns the number of those rows, and
    commits; the orders are untouched.  The same call again returns the
    same count and changes nothing. *)
Theorem update_user_rewrites (c : Connection) (v : Z) (key : string) :
  usable c -> NoDup (map id (users (db c))) ->
  exists c1,
    update_user v key c
    = (inr (Z.of_nat (List.length
                        (filter (fun u => (name u =? key)%string) (users (db c))))), c1) /\
    users (db c1)
    = map (fun u => if (name u =? key)%string then set_age v u else u) (users (db c)) /\
    orders (db c1) = orders (db c) /\
    journal c1 = None /\
    update_user v key c1
    = (inr (Z.of_nat (List.length
                        (filter (fun u => (name u =? key)%string) (users (db c))))), c1).
Proof.
  intros Hu Hnd.
  assert (G : forall c0, usable c0 -> NoDup (map id (users (db c0))) ->
            update_user v key c0
            = (inr (Z.of_nat (List.length
                        (filter (fun u => (name u =? key)%string) (users (db c0))))),
               mkConnection Open false (foreign_keys c0)
                 (set_users (db c0)
                    (map (fun u => if (name u =? key)%string then set_age v u else u)
                         (users (db c0)))
                    (users_seq (db c0))) None)).
  { intros c0 Hu0 Hnd0. unfold update_user, bind.
    rewrite (execute_dml_usable _ _ Hu0). unfold step.
    rewrite db_begin_implicit.
    rewrite (UPDATE_users_closed v key _ (db c0) Hnd0).
    rewrite commit_open by (cbn; apply (usable_begin_implicit c0 Hu0)).
    unfold ret. f_equal.
    destruct c0 as [h cc f d j]. destruct Hu0 as [Hh Hc]. cbn in Hh, Hc. subst.
    unfold begin_implicit. now destruct j. }
  rewrite (G c Hu Hnd). eexists. split; [reflexivity|].
  cbn [db users orders journal set_users].
  split; [reflexivity|]. split; [reflexivity|]. split; [reflexivity|].
  destruct (rewrite_age_twice v key (users (db c))) as [T1 [T2 T3]].
  rewrite G.
  - cbn [db users users_seq foreign_keys set_users]. rewrite T1, T2. reflexivity.
  - split; reflexivity.
  - cbn [db users set_users]. now rewrite T3.
Qed.

Lemma update_user_rewrites_witness :
  exists c1,
    update_user 31 "Alice" seeded
    = (inr (Z.of_nat (List.length
              (filter (fun u => (name u =? "Alice")%string) (users (db seeded))))), c1) /\
    users (db c1)
    = map (fun u => if (name u =? "Alice")%string then set_age 31 u else u)
          (users (db seeded)) /\
    orders (db c1) = orders (db seeded) /\
    journal c1 = None /\
    update_user 31 "Alice" c1
    = (inr (Z.of_nat (List.length
              (filter (fun u => (name u =? "Alice")%string) (users (db seeded))))), c1).
Proof.
  apply (update_user_rewrites seeded 31 "Alice").
  - split; reflexivity.
  - vm_compute. repeat constructor; cbn; intuition discriminate.
Defined.

(** [delete_user] on a usable connection.  When the foreign key is
    enforced and an order points at a row to delete, the call raises
    [IntegrityError] and the connection sees the same database as before.
    Otherwise it removes exactly the rows that carry the name, keeps the
    others in their order, returns the number of rows removed, commits,
    and leaves the orders alone; the same call again returns 0 and changes
    nothing. *)
Theorem delete_user_outcome (c : Connection) (key : string) :
  usable c ->
  let gone := filter (fun u => (name u =? key)%string) (users (db c)) in
  if foreign_keys c && existsb (references gone) (orders (db c))
  then
    fst (delete_user key c) = inl (IntegrityError FOREIGN_KEY) /\
    db (snd (delete_user key c)) = db c /\
    durable (snd (delete_user key c)) = durable c
  else
    exists c1,
      delete_user key c = (inr (Z.of_nat (List.length gone)), c1) /\
      users (db c1) = filter (fun u => negb (name u =? key)%string) (users (db c)) /\
      orders (db c1) = orders (db c) /\
      journal c1 = None /\
      delete_user key c1 = (inr 0, c1).
Proof.
  intros Hu gone.
  assert (G : forall c0, usable c0 ->
            delete_user key c0
            = match DELETE_FROM_users key (foreign_keys c0) (db c0) with
              | inl e => (inl e, snd (begin_implicit c0))
              | inr (n, d) => (inr n, mkConnection Open false (foreign_keys c0) d None)
              end).
  { intros c0 Hu0. unfold delete_user, bind.
    rewrite (execute_dml_usable _ _ Hu0). unfold step.
    rewrite db_begin_implicit.
    assert (F : foreign_keys (snd (begin_implicit c0)) = foreign_keys c0).
    { unfold begin_implicit. now destruct (journal c0). }
    rewrite F.
    destruct (DELETE_FROM_users key (foreign_keys c0) (db c0)) as [e|[n d]];
      [reflexivity|].
    rewrite commit_open by (cbn; apply (usable_begin_implicit c0 Hu0)).
    unfold ret. f_equal.
    destruct c0 as [h cc f d0 j]. destruct Hu0 as [Hh Hc]. cbn in Hh, Hc. subst.
    unfold begin_implicit. now destruct j. }
  rewrite (G c Hu). unfold DELETE_FROM_users. fold gone.
  destruct (foreign_keys c && existsb (references gone) (orders (db c))) eqn:E.
  - cbn [fst snd]. split; [reflexivity|].
    split; [apply db_begin_implicit | apply durable_begin_implicit].
  - eexists. split; [reflexivity|].
    cbn [db users orders journal set_users].
    split; [reflexivity|]. split; [reflexivity|]. split; [reflexivity|].
    rewrite G by (split; reflexivity).
    cbn [db foreign_keys].
    rewrite DELETE_no_match.
    + now destruct (db c).
    + cbn [users set_users]. intros u Hin. apply filter_In in Hin.
      destruct Hin as [_ Hn]. apply negb_true_iff, String.eqb_neq in Hn. exact Hn.
Qed.

Lemma delete_user_outcome_witness :
  exists c1,
    delete_user "Bob" seeded
    = (inr (Z.of_nat (List.length
              (filter (fun u => (name u =? "Bob")%string) (users (db seeded))))), c1) /\
    users (db c1)
    = filter (fun u => negb (name u =? "Bob")%string) (users (db seeded)) /\
    orders (db c1) = orders (db seeded) /\
    journal c1 = None /\
    delete_user "Bob" c1 = (inr 0, c1).
Proof.
  apply (delete_user_outcome seeded "Bob"). split; reflexivity.
Defined.

(** ** The transaction block, in general *)

(** The block of lines 199-222 on a usable connection in autocommit either
    commits both rows - the user and the order, each under the rowid that
    follows the last one of its table - or rolls back and leaves the
    connection exactly as it was.  It never keeps one of the two rows
    without the other.  What it rolls back on is an error of a statement:
    a value that cannot be bound, a table that is full, or a constraint;
    never that of a closed handle. *)
Theorem transaction_all_or_nothing (c : Connection) (u : UserParams) (o : OrderParams) :
  usable c -> journal c = None ->
  (exists c',
     transaction u o c = (inr Committed, c') /\
     journal c' = None /\
     users (db c')
     = users (db c)
       ++ [user_row (last_rowid (map id (users (db c))) (users_seq (db c)) + 1) u] /\
     orders (db c')
     = orders (db c)
       ++ [order_row (last_rowid (map order_id (orders (db c))) (orders_seq (db c)) + 1) o])
  \/
  (exists e,
     transaction u o c = (inr (RolledBack e), c) /\
     (e = OverflowError \/ e = OperationalError \/ exists k, e = IntegrityError k)).
Proof.
  destruct c as [h cc f d j].
  intros [Hh Hc] Hj. cbn [handle cursor_closed journal] in *. subst.
  unfold transaction, try_except, bind, execute_BEGIN, execute_dml, bind,
    check_connection, check_cursor, begin_implicit, step, commit, rollback, ret.
  cbn [handle cursor_closed journal foreign_keys db set_db set_journal fst snd].
  destruct (INSERT_INTO_users u f d) as [e|[n d1]] eqn:Eu.
  - right. exists e.
    cbn [handle cursor_closed journal foreign_keys db set_db set_journal fst snd
         durable].
    split; [reflexivity|].
    apply INSERT_INTO_users_inl in Eu. destruct Eu as [-> | [-> | ->]]; eauto.
  - cbn [handle cursor_closed journal foreign_keys db set_db set_journal fst snd].
    destruct (INSERT_INTO_orders o f d1) as [e|[m d2]] eqn:Eo.
    + right. exists e.
      cbn [handle cursor_closed journal foreign_keys db set_db set_journal fst snd
           durable].
      split; [reflexivity|].
      apply INSERT_INTO_orders_inl in Eo. destruct Eo as [-> | [-> | ->]]; eauto.
    + left.
      cbn [handle cursor_closed journal foreign_keys db set_db set_journal fst snd].
      eexists. split; [reflexivity|].
      apply INSERT_INTO_users_inr in Eu. destruct Eu as [i [Ei [_ [_ ->]]]].
      apply INSERT_INTO_orders_inr in Eo. destruct Eo as [i' [Ei' [_ ->]]].
      cbn [set_users users orders orders_seq] in Ei'.
      apply next_rowid_inr in Ei, Ei'. destruct Ei as [-> _], Ei' as [-> _].
      cbn [journal db set_users set_orders users orders].
      split; [reflexivity|]. split; reflexivity.
Qed.

Lemma transaction_all_or_nothing_witness :
  (exists c',
     transaction Eve Tablet with_orders = (inr Committed, c') /\
     journal c' = None /\
     users (db c')
     = users (db with_orders)
       ++ [user_row (last_rowid (map id (users (db with_orders)))
                                (users_seq (db with_orders)) + 1) Eve] /\
     orders (db c')
     = orders (db with_orders)
       ++ [order_row (last_rowid (map order_id (orders (db with_orders)))
                                 (orders_seq (db with_orders)) + 1) Tablet])
  \/
  (exists e,
     transaction Eve Tablet with_orders = (inr (RolledBack e), with_orders) /\
     (e = OverflowError \/ e = OperationalError \/ exists k, e = IntegrityError k)).
Proof.
  apply (transaction_all_or_nothing with_orders Eve Tablet).
  - split; reflexivity.
  - reflexivity.
Defined.

(** The block rolls back on an age that cannot be bound, and on a users
    table that is full, as it does on a constraint. *)
Example transaction_rolls_back_on_any_error :
  transaction ("Eve", 2 ^ 63, "eve@newdomain.com", Some "Miami") Tablet with_orders
  = (inr (RolledBack OverflowError), with_orders) /\
  (let full := set_db with_orders
                 (mkDatabase (users (db with_orders)) (orders (db with_orders))
                    (2 ^ 63 - 1) (orders_seq (db with_orders)) false false) in
   transaction Eve Tablet full = (inr (RolledBack OperationalError), full)).
Proof. split; vm_compute; reflexivity. Qed.

Lemma transaction_enforced_witness :
  exists k,
    transaction Eve Tablet (mkConnection Open false true (db with_orders) None)
    = (inr (RolledBack (IntegrityError k)),
       mkConnection Open false true (db with_orders) None).
Proof.
  apply (transaction_enforced (mkConnection Open false true (db with_orders) None)
           Eve Tablet).
  - split; reflexivity.
  - reflexivity.
  - reflexivity.
  - reflexivity.
  - vm_compute. discriminate.
  - reflexivity.
  - reflexivity.
  - reflexivity.
  - unfold room. vm_compute. discriminate.
  - unfold room. vm_compute. discriminate.
Defined.

Lemma transaction_unenforced_witness :
  exists c',
    transaction Eve Tablet with_orders = (inr Committed, c') /\
    journal c' = None /\
    List.length (users (db c')) = S (List.length (users (db with_orders))) /\
    List.length (orders (db c')) = S (List.length (orders (db with_orders))).
Proof.
  apply (transaction_unenforced with_orders Eve Tablet).
  - split; reflexivity.
  - reflexivity.
  - reflexivity.
  - reflexivity.
  - reflexivity.
  - reflexivity.
  - reflexivity.
  - unfold room. vm_compute. discriminate.
  - unfold room. vm_compute. discriminate.
Defined.

(** ** Running the script again *)

Lemma bind_inr {A B} (m : M A) (k : A -> M B) c a c1 :
  m c = (inr a, c1) -> bind m k c = k a c1.
Proof. intros E. unfold bind. now rewrite E. Qed.

Lemma bind_inl {A B} (m : M A) (k : A -> M B) c e c1 :
  m c = (inl e, c1) -> bind m k c = (inl e, c1).
Proof. intros E. unfold bind. now rewrite E. Qed.

Lemma triple_bind {A B} P Q R (m : M A) (k : A -> M B) :
  triple P m Q -> (forall a, triple Q (k a) R) -> triple P (bind m k) R.
Proof.
  intros Hm Hk c b c' HP E. unfold bind in E.
  destruct (m c) as [[e|a] c1] eqn:Em; [discriminate|].
  apply (Hk a c1 b c'); [|exact E]. now apply (Hm c a c1).
Qed.

Lemma triple_preserves {A} P (m : M A) : preserves P m -> triple P m P.
Proof.
  intros H c a c' HP E. specialize (H c HP). now rewrite E in H.
Qed.

Lemma triple_ret {A} P (a : A) : triple P (ret a) P.
Proof. apply triple_preserves, preserves_ret. Qed.

(** A bulk insert of users with a clash stops at a record and leaves the
    file as it was. *)
Lemma seed_users_clash (c : Connection) (batch : list UserParams) :
  usable c ->
  duplicate_email (map email (users (db c))) batch ->
  exists e c',
    seed_users batch c = (inl e, c') /\
    durable c' = durable c /\
    (storable batch ->
     e = OperationalError \/ e = IntegrityError UNIQUE_users_email) /\
    (storable batch ->
     room (last_rowid (map id (users (db c))) (users_seq (db c))) (List.length batch) ->
     e = IntegrityError UNIQUE_users_email).
Proof.
  intros Hu Hd.
  destruct (steps_users_clash batch (snd (begin_implicit c)))
    as [e [c' [E [J [K1 K2]]]]].
  { now rewrite db_begin_implicit. }
  exists e, c'. split; [|split; [|split]].
  - unfold seed_users. apply bind_inl. now rewrite (executemany_usable _ _ _ Hu).
  - unfold durable at 1. rewrite J, journal_begin_implicit. reflexivity.
  - intros Hs. specialize (K2 Hs). destruct K1 as [-> | K1]; [congruence | exact K1].
  - intros Hs Hr.
    destruct (steps_users_duplicate batch (snd (begin_implicit c))) as [c2 [E2 _]];
      [exact Hs | now rewrite db_begin_implicit | now rewrite db_begin_implicit |].
    rewrite E2 in E. now injection E as <- _.
Qed.

Lemma storable_users_data : storable users_data.
Proof. intros p [<- | [<- | [<- | [<- | []]]]]; reflexivity. Qed.

(** The script goes no further than a bulk insert of users that fails. *)
Lemma run_stops_at_seed (file : Database) e c' :
  seed_users users_data (connect file) = (inl e, c') -> run file = (inl e, c').
Proof.
  intros E. unfold run, script.
  rewrite (bind_inr _ _ (connect file) tt (connect file)) by reflexivity.
  now apply bind_inl.
Qed.

(** On a file whose users table already holds one of the emails of
    [users_data] - as every file the script has run on does - the script
    stops at line 26 and the file is left exactly as it was.  The error is
    [IntegrityError] on the UNIQUE constraint when the table has rowids
    left for the four records; on a table that runs full before the
    offending record it is [OperationalError]. *)
Theorem script_stops_on_seed_email (file : Database) :
  duplicate_email (map email (users file)) users_data ->
  exists e c',
    run file = (inl e, c') /\
    at_exit (run file) = file /\
    (e = OperationalError \/ e = IntegrityError UNIQUE_users_email) /\
    (room (last_rowid (map id (users file)) (users_seq file)) 4 ->
     e = IntegrityError UNIQUE_users_email).
Proof.
  intros Hd.
  destruct (seed_users_clash (connect file) users_data) as [e [c' [E [D [K1 K2]]]]];
    [split; reflexivity | exact Hd |].
  apply run_stops_at_seed in E.
  exists e, c'. split; [exact E|]. unfold at_exit. rewrite E.
  split; [exact D|]. split; [exact (K1 storable_users_data)|].
  exact (K2 storable_users_data).
Qed.

Lemma script_stops_on_seed_email_witness :
  exists e c',
    run stale_file_2 = (inl e, c') /\
    at_exit (run stale_file_2) = stale_file_2 /\
    (e = OperationalError \/ e = IntegrityError UNIQUE_users_email) /\
    (room (last_rowid (map id (users stale_file_2)) (users_seq stale_file_2)) 4 ->
     e = IntegrityError UNIQUE_users_email).
Proof.
  apply (script_stops_on_seed_email stale_file_2).
  exists [("Alice", 30, "alice@example.com", Some "New York")],
    ("Bob", 25, "bob@example.com", Some "Los Angeles"),
    [("Charlie", 35, "charlie@example.com", Some "Chicago");
     ("David", 40, "david@example.com", Some "Houston")].
  split; [reflexivity|]. cbn. now left.
Defined.

(** The two errors on concrete files: the email of the second record is
    taken; the same, on a table with one rowid left. *)
Example seed_email_taken_errors :
  fst (run stale_file_2) = inl (IntegrityError UNIQUE_users_email) /\
  fst (run (mkDatabase [mkUser 1 "Robert" 61 "bob@example.com" None] []
              (2 ^ 63 - 2) 0 false false))
  = inl OperationalError.
Proof. split; vm_compute; reflexivity. Qed.

Lemma write_row_who (v r : Z) (us : list User) (old : User) :
  find (fun u => id u =? r) us = Some old ->
  map who (write_row r (set_age v old) us) = map who us.
Proof.
  induction us as [|u us IH]; cbn [find write_row map]; [discriminate|].
  destruct (id u =? r); intros F.
  - injection F as <-. reflexivity.
  - cbn [map]. now rewrite IH.
Qed.

Lemma update_row_who trig v us r : map who (update_row trig v us r) = map who us.
Proof.
  unfold update_row. destruct (find _ us) as [old|] eqn:F; [|reflexivity].
  destruct trig; [|now apply write_row_who].
  unfold trigger_body. rewrite map_map. rewrite <- (write_row_who v r us old F).
  apply map_ext. intros u. now destruct (id u =? id old).
Qed.

Lemma fold_update_row_who trig v rs us :
  map who (fold_left (update_row trig v) rs us) = map who us.
Proof.
  revert us. induction rs as [|r rs IH]; intros us; cbn [fold_left]; [reflexivity|].
  rewrite IH. apply update_row_who.
Qed.

Lemma has_alice_kept_by_statements :
  (forall p, kept_by has_alice (INSERT_INTO_users p)) /\
  (forall p, kept_by has_alice (INSERT_INTO_orders p)) /\
  (forall v key, kept_by has_alice (UPDATE_users_SET_age v key)) /\
  kept_by has_alice (DELETE_FROM_users "Bob").
Proof.
  unfold kept_by, has_alice. split; [|split; [|split]].
  - intros p fk d n d' H E. apply INSERT_INTO_users_inr in E.
    destruct E as [i [_ [_ [_ ->]]]].
    cbn [users set_users]. rewrite map_app. apply in_app_iff. now left.
  - intros p fk d n d' H E. apply INSERT_INTO_orders_inr in E.
    destruct E as [i [_ [_ ->]]]. exact H.
  - intros v key fk d n d' H E. unfold UPDATE_users_SET_age in E.
    injection E as _ <-. cbn [users set_users]. now rewrite fold_update_row_who.
  - intros fk d n d' H E. unfold DELETE_FROM_users in E.
    destruct (fk && _); [discriminate|]. injection E as _ <-.
    cbn [users set_users]. apply in_map_iff in H. destruct H as [u [Ew Hu]].
    apply in_map_iff. exists u. split; [exact Ew|].
    apply filter_In. split; [exact Hu|].
    unfold who in Ew. injection Ew as En _. now rewrite En.
Qed.

Lemma steps_cons {P} (stmt : P -> bool -> Database -> Error + (Z * Database)) p ps :
  steps stmt (p :: ps)
  = (n <- step (stmt p) ;; m <- steps stmt ps ;; ret (n + m)).
Proof. reflexivity. Qed.

(** Once the bulk insert of [users_data] has returned, the first record is
    in the table and committed. *)
Lemma seed_users_alice : triple (fun _ => True) (seed_users users_data) (holds has_alice).
Proof.
  destruct has_alice_kept_by_statements as [K1 _].
  unfold seed_users.
  apply triple_bind with (Q := fun c => has_alice (db c)).
  - unfold executemany.
    apply triple_bind with (Q := fun _ => True); [easy|]. intros _.
    apply triple_bind with (Q := fun _ => True); [easy|]. intros _.
    unfold users_data. rewrite steps_cons.
    apply triple_bind with (Q := fun c => has_alice (db c)).
    + intros c n c' _ E. unfold step in E.
      destruct (INSERT_INTO_users _ (foreign_keys c) (db c)) as [e|[m d]] eqn:Ei;
        [discriminate|].
      injection E as _ <-.
      apply INSERT_INTO_users_inr in Ei. destruct Ei as [i [_ [_ [_ ->]]]].
      unfold has_alice. cbn [db set_db users set_users]. rewrite map_app.
      apply in_app_iff. right. now left.
    + intros n. apply triple_preserves.
      apply preserves_bind; [|intros m; apply preserves_ret].
      apply preserves_steps. intros p c H. unfold step.
      destruct (INSERT_INTO_users p (foreign_keys c) (db c)) as [e|[m d]] eqn:E;
        [exact H|]. cbn [snd db set_db]. now apply (K1 p _ _ _ _ H E).
  - intros _ c a c' H E. unfold commit, bind, check_connection in E.
    destruct (handle c); [|discriminate]. injection E as _ <-.
    split; exact H.
Qed.

Lemma holds_update_user I v key :
  kept_by I (UPDATE_users_SET_age v key) -> preserves (holds I) (update_user v key).
Proof.
  intros K. unfold update_user.
  apply preserves_bind; [now apply holds_execute_dml|]. intros n.
  apply preserves_bind; [apply holds_commit|]. intros _. apply preserves_ret.
Qed.

Lemma holds_delete_user I key :
  kept_by I (DELETE_FROM_users key) -> preserves (holds I) (delete_user key).
Proof.
  intros K. unfold delete_user.
  apply preserves_bind; [now apply holds_execute_dml|]. intros n.
  apply preserves_bind; [apply holds_commit|]. intros _. apply preserves_ret.
Qed.

Lemma holds_seed_orders I batch :
  (forall p, kept_by I (INSERT_INTO_orders p)) -> preserves (holds I) (seed_orders batch).
Proof.
  intros K. unfold seed_orders.
  apply preserves_bind; [now apply holds_executemany|]. intros _. apply holds_commit.
Qed.

Lemma holds_transaction_block I :
  (forall p, kept_by I (INSERT_INTO_users p)) ->
  (forall p, kept_by I (INSERT_INTO_orders p)) ->
  preserves (holds I) transaction_block.
Proof.
  intros K1 K2. unfold transaction_block.
  apply preserves_bind; [now apply holds_transaction|]. intros t.
  apply preserves_bind; [apply preserves_execute_query|]. intros us.
  apply preserves_bind; [apply preserves_execute_query|]. intros os.
  apply preserves_ret.
Qed.

(** A run of the script that reaches its end leaves the first record of
    [users_data] in the file. *)
Lemma script_leaves_alice : triple (fun _ => True) script (holds has_alice).
Proof.
  destruct has_alice_kept_by_statements as [K1 [K2 [K3 K4]]].
  unfold script.
  apply triple_bind with (Q := fun _ => True); [easy|]. intros _.
  apply triple_bind with (Q := holds has_alice); [apply seed_users_alice|]. intros _.
  apply triple_preserves.
  repeat (first
    [ apply preserves_ret
    | apply preserves_execute_query
    | apply holds_update_user; solve [auto]
    | apply holds_delete_user; solve [auto]
    | apply holds_seed_orders; solve [auto]
    | apply holds_transaction_block; solve [auto]
    | apply holds_execute_ddl; solve [auto]
    | apply holds_close
    | apply preserves_bind; [|intros ?] ]).
Qed.

(** The bulk insert of a batch whose first record has an age that fits and
    an email that is taken stops at that record: on the full table, before
    the email is looked at; otherwise on the UNIQUE constraint. *)
Lemma seed_users_first_taken (c : Connection) (p : UserParams) (batch : list UserParams) :
  usable c ->
  in_int64 (age_of p) = true ->
  In (email_of p) (map email (users (db c))) ->
  exists c',
    seed_users (p :: batch) c
    = (inl (if 2 ^ 63 - 1 <=? last_rowid (map id (users (db c))) (users_seq (db c))
            then OperationalError
            else IntegrityError UNIQUE_users_email), c') /\
    durable c' = durable c.
Proof.
  intros Hu Ha He. exists (snd (begin_implicit c)).
  split; [|apply durable_begin_implicit].
  unfold seed_users. apply bind_inl. rewrite (executemany_usable _ _ _ Hu).
  rewrite steps_cons. apply bind_inl. unfold step. rewrite db_begin_implicit.
  destruct p as [[[nm a] e] ct]. cbn [age_of email_of] in Ha, He.
  unfold INSERT_INTO_users, next_rowid. rewrite Ha. cbn [negb].
  destruct (2 ^ 63 - 1 <=? _); [reflexivity|].
  apply email_present in He. rewrite He. reflexivity.
Qed.

(** The script cannot be run twice on one file: when a run has reached its
    end, the next run on the file it left stops at line 26 and leaves that
    file as it is.  The error is [IntegrityError] on the UNIQUE
    constraint, the email of the first record being taken, unless the run
    has used the largest rowid of the users table: then it is
    [OperationalError], the table being full. *)
Theorem script_runs_once (file : Database) (p : Printed) (c : Connection) :
  run file = (inr p, c) ->
  exists c',
    run (at_exit (run file))
    = (inl (if 2 ^ 63 - 1 <=? last_rowid (map id (users (at_exit (run file))))
                                         (users_seq (at_exit (run file)))
            then OperationalError
            else IntegrityError UNIQUE_users_email), c') /\
    at_exit (run (at_exit (run file))) = at_exit (run file).
Proof.
  intros E.
  assert (H : holds has_alice c).
  { apply (script_leaves_alice (connect file) p c); [exact I | exact E]. }
  unfold at_exit at 1 2 3 5. rewrite E. cbn [snd].
  destruct H as [_ H]. unfold has_alice in H.
  apply in_map_iff in H. destruct H as [u [Ew Hu]].
  unfold who in Ew. injection Ew as _ Ee.
  destruct (seed_users_first_taken (connect (durable c))
              ("Alice", 30, "alice@example.com", Some "New York")
              [("Bob", 25, "bob@example.com", Some "Los Angeles");
               ("Charlie", 35, "charlie@example.com", Some "Chicago");
               ("David", 40, "david@example.com", Some "Houston")])
    as [c' [R D]].
  - split; reflexivity.
  - reflexivity.
  - cbn [email_of]. rewrite <- Ee. now apply in_map.
  - apply run_stops_at_seed in R. exists c'. split; [exact R|].
    unfold at_exit. rewrite R. exact D.
Qed.

Lemma script_runs_once_witness :
  exists c',
    run (at_exit (run empty_db))
    = (inl (if 2 ^ 63 - 1 <=? last_rowid (map id (users (at_exit (run empty_db))))
                                         (users_seq (at_exit (run empty_db)))
            then OperationalError
            else IntegrityError UNIQUE_users_email), c') /\
    at_exit (run (at_exit (run empty_db))) = at_exit (run empty_db).
Proof.
  let r := eval vm_compute in (run empty_db) in
  match r with
  | (inr ?p, ?c) => apply (script_runs_once empty_db p c)
  end.
  vm_compute. reflexivity.
Defined.

(** The second run on the file the first run leaves from the empty file
    fails on the constraint. *)
Example script_second_run :
  fst (run (at_exit (run empty_db))) = inl (IntegrityError UNIQUE_users_email).
Proof. vm_compute. reflexivity. Qed.

(** ** Aggregates over tables with rows *)

Lemma fold_left_max_spec (l : list Z) (a : Z) :
  In (fold_left Z.max l a) (a :: l) /\
  a <= fold_left Z.max l a /\
  forall x, In x l -> x <= fold_left Z.max l a.
Proof.
  revert a. induction l as [|y l IH]; intros a; cbn [fold_left].
  - split; [now left|]. split; [lia | easy].
  - destruct (IH (Z.max a y)) as [H1 [H2 H3]]. split; [|split].
    + destruct H1 as [H1 | H1]; [|right; now right].
      rewrite <- H1. destruct (Z.max_spec a y) as [[_ ->] | [_ ->]];
        [right; now left | now left].
    + lia.
    + intros x [<- | Hx]; [lia | now apply H3].
Qed.

(** Over a users table with at least one row, MAX(age) is the age of some
    row and no row has a greater age. *)
Theorem MAX_age_greatest (d : Database) :
  users d <> [] ->
  exists m,
    SELECT_MAX_age d = inr (Some m) /\
    (exists u, In u (users d) /\ age u = m) /\
    forall u, In u (users d) -> age u <= m.
Proof.
  intros Hne. unfold SELECT_MAX_age.
  destruct (users d) as [|u us] eqn:E; [congruence|]. cbn [map].
  eexists. split; [reflexivity|].
  destruct (fold_left_max_spec (map age us) (age u)) as [H1 [H2 H3]]. split.
  - change (age u :: map age us) with (map age (u :: us)) in H1.
    apply in_map_iff in H1. destruct H1 as [x [Ex Hx]]. now exists x.
  - intros x [<- | Hx]; [exact H2|]. apply H3. now apply in_map.
Qed.

Lemma MAX_age_greatest_witness :
  exists m,
    SELECT_MAX_age (db seeded) = inr (Some m) /\
    (exists u, In u (users (db seeded)) /\ age u = m) /\
    forall u, In u (users (db seeded)) -> age u <= m.
Proof.
  apply (MAX_age_greatest (db seeded)). discriminate.
Defined.

Lemma sum_step_total (l : list Z) (acc s : Z) :
  sum_step acc l = inr s -> s = acc + fold_right Z.add 0 l.
Proof.
  revert acc. induction l as [|q l IH]; intros acc; cbn [sum_step fold_right].
  - intros E. injection E as <-. lia.
  - destruct (in_int64 (acc + q)); [|discriminate].
    intros E. apply IH in E. lia.
Qed.

Lemma sum_nonneg (l : list Z) :
  (forall q, In q l -> 0 <= q) -> 0 <= fold_right Z.add 0 l.
Proof.
  induction l as [|q l IH]; cbn [fold_right]; intros H; [lia|].
  assert (0 <= q) by (apply H; now left).
  assert (0 <= fold_right Z.add 0 l) by (apply IH; intros x Hx; apply H; now right).
  lia.
Qed.

Lemma sum_step_in_range (l : list Z) (acc : Z) :
  0 <= acc -> (forall q, In q l -> 0 <= q) ->
  acc + fold_right Z.add 0 l < 2 ^ 63 ->
  sum_step acc l = inr (acc + fold_right Z.add 0 l).
Proof.
  revert acc. induction l as [|q l IH]; intros acc Ha Hl Hs; cbn [sum_step fold_right] in *.
  - f_equal. lia.
  - assert (Hq : 0 <= q) by (apply Hl; now left).
    assert (Hr : 0 <= fold_right Z.add 0 l)
      by (apply sum_nonneg; intros x Hx; apply Hl; now right).
    assert (R : in_int64 (acc + q) = true).
    { unfold in_int64. apply andb_true_iff. split; [apply Z.leb_le | apply Z.ltb_lt]; lia. }
    rewrite R, IH; [f_equal; lia | lia | intros x Hx; apply Hl; now right | lia].
Qed.

(** SUM(quantity) answers NULL exactly when [orders] has no row; an
    answer that is a number is the sum of the quantities; and when no
    quantity is negative and the sum is below 2^63, the query does answer
    it rather than fail on overflow. *)
Theorem SUM_quantity_total (d : Database) :
  (SELECT_SUM_quantity d = inr None <-> orders d = []) /\
  (forall s, SELECT_SUM_quantity d = inr (Some s) ->
             s = fold_right Z.add 0 (map quantity (orders d))) /\
  (orders d <> [] ->
   (forall o, In o (orders d) -> 0 <= quantity o) ->
   fold_right Z.add 0 (map quantity (orders d)) < 2 ^ 63 ->
   SELECT_SUM_quantity d = inr (Some (fold_right Z.add 0 (map quantity (orders d))))).
Proof.
  unfold SELECT_SUM_quantity. split; [|split].
  - destruct (orders d) as [|o os]; [easy|]. cbn [map].
    destruct (sum_step 0 (quantity o :: map quantity os)); easy.
  - intros s. destruct (map quantity (orders d)) as [|q l] eqn:E; [discriminate|].
    destruct (sum_step 0 (q :: l)) as [e|s'] eqn:S; [discriminate|].
    intros H. injection H as <-. apply sum_step_total in S. lia.
  - intros Hne Hq Hs.
    destruct (map quantity (orders d)) as [|q l] eqn:E.
    { destruct (orders d); [congruence | discriminate]. }
    rewrite sum_step_in_range; [reflexivity | lia | | lia].
    intros x Hx. rewrite <- E in Hx. apply in_map_iff in Hx.
    destruct Hx as [o [<- Ho]]. now apply Hq.
Qed.

Lemma SUM_quantity_total_witness :
  SELECT_SUM_quantity (db with_orders)
  = inr (Some (fold_right Z.add 0 (map quantity (orders (db with_orders))))).
Proof.
  apply (proj2 (proj2 (SUM_quantity_total (db with_orders)))).
  - discriminate.
  - vm_compute. intros o [<- | [<- | [<- | [<- | []]]]]; discriminate.
  - vm_compute. reflexivity.
Defined.

(** A sum that leaves the 64-bit range is an error, not a wrong number. *)
Example SUM_overflow :
  SELECT_SUM_quantity
    (mkDatabase [] [mkOrder 1 None "a" (2 ^ 62); mkOrder 2 None "b" (2 ^ 62)]
                0 2 false false)
  = inl OperationalError.
Proof. reflexivity. Qed.

(** ** The join, the grouped counts and the orders *)

Lemma inner_join_cons us o os :
  inner_join us (o :: os)
  = match user_of us o with
    | Some u => [(name u, product_name o, quantity o)]
    | None => []
    end ++ inner_join us os.
Proof. reflexivity. Qed.

(** The join has at most one row per order, and exactly one, in the order
    of the orders table and with the order's product and quantity, when
    every order points at a user that exists. *)
Theorem inner_join_per_order (d : Database) :
  exists rows,
    SELECT_join d = inr rows /\
    (List.length rows <= List.length (orders d))%nat /\
    (referential d ->
     map (fun t => (snd (fst t), snd t)) rows
     = map (fun o => (product_name o, quantity o)) (orders d)).
Proof.
  unfold SELECT_join, referential. eexists. split; [reflexivity|].
  induction (orders d) as [|o os [IH1 IH2]]; [now split|].
  rewrite inner_join_cons, length_app, map_app. split.
  - destruct (user_of (users d) o); cbn [List.length]; lia.
  - intros H. rewrite IH2 by (intros x Hx; apply H; now right).
    destruct (user_of (users d) o) eqn:E; [reflexivity|].
    exfalso. apply (H o); [now left | exact E].
Qed.

Lemma inner_join_per_order_witness :
  map (fun t => (snd (fst t), snd t)) (inner_join (users (db with_orders))
                                                  (orders (db with_orders)))
  = map (fun o => (product_name o, quantity o)) (orders (db with_orders)).
Proof.
  destruct (inner_join_per_order (db with_orders)) as [rows [E [_ H]]].
  injection E as <-. apply H.
  intros o [<- | [<- | [<- | [<- | []]]]]; discriminate.
Defined.

Lemma list_sum_zero {A} (f : A -> nat) (l : list A) :
  (forall x, In x l -> f x = 0%nat) -> list_sum (map f l) = 0%nat.
Proof.
  induction l as [|a l IH]; simpl; intros H; [reflexivity|].
  rewrite H by now left. rewrite IH; [reflexivity|]. intros x Hx. apply H. now right.
Qed.

Lemma list_sum_plus {A} (f g : A -> nat) (l : list A) :
  list_sum (map (fun x => (f x + g x)%nat) l)
  = (list_sum (map f l) + list_sum (map g l))%nat.
Proof.
  induction l as [|a l IH]; simpl; [reflexivity|]. rewrite IH. lia.
Qed.

Lemma list_sum_one (x : string) (keys : list string) :
  NoDup keys -> In x keys ->
  list_sum (map (fun n => if (x =? n)%string then 1%nat else 0%nat) keys) = 1%nat.
Proof.
  induction keys as [|k keys IH]; intros Hnd Hin; [easy|].
  inversion Hnd as [|? ? Hn Hd]; subst. simpl.
  destruct Hin as [-> | Hin].
  - rewrite String.eqb_refl. rewrite list_sum_zero; [reflexivity|].
    intros n Hk. destruct (x =? n)%string eqn:E; [|reflexivity].
    apply String.eqb_eq in E. subst n. contradiction.
  - rewrite IH by assumption.
    destruct (x =? k)%string eqn:E; [|reflexivity].
    apply String.eqb_eq in E. subst k. contradiction.
Qed.

(** Over all groups, the rows counted are the joined rows that carry an
    order, each once. *)
Lemma sum_counted (keys : list string) (rows : list (User * option Order)) :
  NoDup keys ->
  (forall r, In r rows -> In (name (fst r)) keys) ->
  list_sum (map (fun n => List.length (filter (counted n) rows)) keys)
  = List.length (filter has_order rows).
Proof.
  intros Hnd. induction rows as [|r rows IH]; intros H.
  - cbn [filter List.length]. now apply list_sum_zero.
  - assert (E : forall n, List.length (filter (counted n) (r :: rows))
                 = ((if counted n r then 1 else 0)
                    + List.length (filter (counted n) rows))%nat).
    { intros n. cbn [filter]. now destruct (counted n r). }
    rewrite (map_ext _ _ E), list_sum_plus, IH by (intros x Hx; apply H; now right).
    assert (Hr : In (name (fst r)) keys) by (apply H; now left).
    destruct r as [u [o|]]; cbn [fst] in Hr.
    + rewrite (map_ext _ (fun n => if (name u =? n)%string then 1%nat else 0%nat))
        by (intros n; unfold counted; cbn [fst snd]; now rewrite andb_true_r).
      rewrite list_sum_one by assumption. reflexivity.
    + rewrite list_sum_zero; [reflexivity|].
      intros n _. unfold counted. cbn [fst snd]. now rewrite andb_false_r.
Qed.

Lemma has_order_user_rows os u :
  List.length (filter has_order (user_rows os u)) = List.length (orders_of u os).
Proof.
  unfold user_rows. destruct (orders_of u os) as [|o l]; [reflexivity|].
  generalize (o :: l). intros l'. induction l' as [|x l' IH]; [reflexivity|].
  cbn [map filter has_order snd List.length]. now rewrite IH.
Qed.

Lemma has_order_left_join us os :
  List.length (filter has_order (left_join us os))
  = list_sum (map (fun u => List.length (orders_of u os)) us).
Proof.
  rewrite left_join_user_rows.
  induction us as [|u us IH]; simpl; [reflexivity|].
  now rewrite filter_app, length_app, has_order_user_rows, IH.
Qed.

Lemma orders_of_cons u o os :
  List.length (orders_of u (o :: os))
  = ((if points_at o u then 1 else 0) + List.length (orders_of u os))%nat.
Proof.
  unfold orders_of, points_at. cbn [filter].
  now destruct (user_id o) as [k|]; [destruct (id u =? k)|].
Qed.

Lemma sum_points_at us o :
  NoDup (map id us) ->
  list_sum (map (fun u => if points_at o u then 1%nat else 0%nat) us)
  = match user_of us o with
    | Some _ => 1%nat
    | None => 0%nat
    end.
Proof.
  unfold points_at, user_of. destruct (user_id o) as [k|];
    [|intros _; now apply list_sum_zero].
  induction us as [|u us IH]; intros Hnd; [reflexivity|].
  inversion Hnd as [|? ? Hn Hd]; subst. simpl.
  destruct (id u =? k) eqn:E.
  - rewrite list_sum_zero; [reflexivity|]. intros x Hx.
    destruct (id x =? k) eqn:Ex; [|reflexivity].
    apply Z.eqb_eq in E. apply Z.eqb_eq in Ex.
    exfalso. apply Hn. rewrite E, <- Ex. now apply in_map.
  - now rewrite IH.
Qed.

Lemma sum_orders_of us os :
  NoDup (map id us) ->
  list_sum (map (fun u => List.length (orders_of u os)) us)
  = List.length (inner_join us os).
Proof.
  intros Hnd. induction os as [|o os IH].
  - cbn [inner_join flat_map List.length]. now apply list_sum_zero.
  - rewrite (map_ext _ _ (fun u => orders_of_cons u o os)), list_sum_plus, IH.
    rewrite inner_join_cons, length_app, sum_points_at by assumption.
    now destruct (user_of us o).
Qed.

Lemma Z_sum_of_nat {A} (f : A -> nat) (l : list A) :
  fold_right Z.add 0 (map (fun x => Z.of_nat (f x)) l) = Z.of_nat (list_sum (map f l)).
Proof.
  induction l as [|a l IH]; simpl; [reflexivity|].
  rewrite IH. lia.
Qed.

(** With ids unique, the counts of the grouped query add up to the number
    of rows of the join, also when several users share a name: grouping by
    name merges users, it loses no order and counts none twice. *)
Theorem group_counts_add_up (d : Database) :
  NoDup (map id (users d)) ->
  exists groups rows,
    SELECT_order_counts d = inr groups /\
    SELECT_join d = inr rows /\
    fold_right Z.add 0 (map snd groups) = Z.of_nat (List.length rows).
Proof.
  intros Hnd. unfold SELECT_order_counts, SELECT_join. do 2 eexists.
  split; [reflexivity|]. split; [reflexivity|].
  unfold group_order_counts. rewrite map_map. cbn [snd].
  rewrite (map_ext _ (fun n => Z.of_nat
             (List.length (filter (counted n) (left_join (users d) (orders d))))))
    by reflexivity.
  rewrite Z_sum_of_nat. f_equal.
  rewrite sum_counted.
  - rewrite has_order_left_join. now apply sum_orders_of.
  - apply sorted_names_NoDup, group_keys_sorted.
  - intros r Hr. apply In_group_keys.
    now apply (in_map (fun x => name (fst x))).
Qed.

Lemma group_counts_add_up_witness :
  exists groups rows,
    SELECT_order_counts (db with_orders) = inr groups /\
    SELECT_join (db with_orders) = inr rows /\
    fold_right Z.add 0 (map snd groups) = Z.of_nat (List.length rows).
Proof.
  apply (group_counts_add_up (db with_orders)).
  vm_compute. repeat constructor; cbn; intuition discriminate.
Defined.

Lemma group_order_counts_distinct_names_witness :
  (forall u, In u (users (db with_orders)) ->
     In (name u, order_count (orders (db with_orders)) u)
        (group_order_counts (users (db with_orders)) (orders (db with_orders)))) /\
  (forall n k,
     In (n, k) (group_order_counts (users (db with_orders)) (orders (db with_orders))) ->
     exists u, In u (users (db with_orders)) /\ name u = n /\
               k = order_count (orders (db with_orders)) u) /\
  NoDup (map fst (group_order_counts (users (db with_orders)) (orders (db with_orders)))) /\
  List.length (group_order_counts (users (db with_orders)) (orders (db with_orders)))
  = List.length (users (db with_orders)) /\
  (forall n k,
     In (n, k) (filter (fun g => 1 <? snd g)
                  (group_order_counts (users (db with_orders)) (orders (db with_orders)))) <->
     exists u, In u (users (db with_orders)) /\ name u = n /\
               k = order_count (orders (db with_orders)) u /\ 1 < k).
Proof.
  apply (group_order_counts_distinct_names (users (db with_orders))
           (orders (db with_orders))).
  vm_compute. repeat constructor; cbn; intuition discriminate.
Defined.
